(** * go-config: the configuration aggregator

    A shallow embedding of package [config] as found in
    [source/consul/consul.go] (the aggregator with its per-source ingestion
    loop, cold-start read path, fan-out and watchers) and of [options.go],
    followed by the properties of the specification checked against it.

    Conventions of the embedding.
    - A Go pointer or interface value that may be [nil] is an [option].
    - A Go result pair [(x, err)] is a pair of options, as the code tests
      [err] and uses [x] separately.
    - The collaborators the package receives through interfaces
      ([source.Source], [source.Watcher], [reader.Reader], [reader.Values],
      [Value]) are records of methods or fields of the class
      [Collaborators]; the state of the outside world they read is [Env].
    - The embedded [sync.RWMutex] is the bit [mu].  Every critical section
      runs as one atomic step, so a step finds [mu] set only when an earlier
      path returned without unlocking; acquiring the lock then waits for an
      unlock that no path of the package performs.
    - Goroutines are kept in the state as tasks with a program point
      ([loops], [removers]) and advance by explicit steps. *)

From Stdlib Require Import ZArith Lia Bool.
From Stdlib Require Strings.Byte.
From stdpp Require Import base option list gmap strings.

Local Open Scope Z_scope.

(** ** Basic data *)

(** A Go [error] value; the nil error is [None]. *)
Definition error := string.

(** A Go [[]byte]. *)
Abbreviation bytes := (list Byte.byte).

(** [bytes.Equal]: same length and same bytes (a nil slice equals an empty
    one, both are the empty list here). *)
Fixpoint bytes_Equal (a b : bytes) : bool :=
  match a, b with
  | [], [] => true
  | x :: a', y :: b' => Byte.eqb x y && bytes_Equal a' b'
  | _, _ => false
  end.

(** Go's [int] ([c.idx]) is 64 bits wide; [c.idx++] wraps. *)
Definition int_wrap (z : Z) : Z := (z + 2 ^ 63) mod 2 ^ 64 - 2 ^ 63.

(** ** Package [source] (interfaces used by the aggregator) *)
Module source.

(** [source.ChangeSet]; [Data] may be a nil slice. *)
Record ChangeSet := mkChangeSet {
  Data : option bytes;
  Checksum : string;
  Name : string;          (* the field [Source] *)
  Timestamp : Z
}.

(** [source.Watcher]: the change stream of one source. *)
Record Watcher (Env : Type) := mkWatcher {
  Next : Env -> (option ChangeSet * option error) * Env;
  Stop : Env -> option error * Env
}.

(** [source.Source]. *)
Record Source (Env : Type) := mkSource {
  Read : Env -> (option ChangeSet * option error) * Env;
  String : string;
  Watch : Env -> (option (Watcher Env) * option error) * Env
}.

Arguments Next {Env}.
Arguments Stop {Env}.
Arguments Read {Env}.
Arguments String {Env}.
Arguments Watch {Env}.
Arguments mkWatcher {Env}.
Arguments mkSource {Env}.
End source.

(** ** Package [reader] *)
Module reader.

(** [reader.Reader]: [Parse] merges the change sets it is given, [Values]
    builds the value tree of a merged set. *)
Record Reader (Values : Type) := mkReader {
  Parse : list (option source.ChangeSet) -> option source.ChangeSet * option error;
  Values_of : option source.ChangeSet -> option Values * option error
}.

Arguments Parse {Values}.
Arguments Values_of {Values}.
Arguments mkReader {Values}.
End reader.

(** What the package takes from outside: the world the sources live in, the
    value types of the reader with the two methods the aggregator calls, the
    constructor [newValue], the default reader [json.NewReader()] and the
    clock. *)
Class Collaborators := {
  Env : Type;
  Value : Type;
  Values : Type;
  Value_Bytes : Value -> bytes;
  Values_Get : Values -> list string -> Value;
  Values_Bytes : Values -> bytes;
  newValue : Value;
  json_NewReader : reader.Reader Values;
  time_Now : Env -> Z
}.

(** ** Channels *)

(** A buffered channel: capacity and queued elements. *)
Record chan (A : Type) := mkChan { cap : nat; buf : list A }.
Arguments mkChan {A}.
Arguments cap {A}.
Arguments buf {A}.

(** [make(chan A, n)]. *)
Definition make_chan {A} (n : nat) : chan A := mkChan n [].

(** [select { case ch <- v: default: }]: the send proceeds when the buffer
    has room, otherwise the default case runs and [v] is not sent. *)
Definition try_send {A} (ch : chan A) (v : A) : chan A :=
  if (length (buf ch) <? cap ch)%nat then mkChan (cap ch) (buf ch ++ [v]) else ch.

(** A receive that can proceed takes the oldest element. *)
Definition try_recv {A} (ch : chan A) : option (A * chan A) :=
  match buf ch with
  | [] => None
  | v :: rest => Some (v, mkChan (cap ch) rest)
  end.

Section Aggregator.
Context `{Collaborators}.

Abbreviation Source := (source.Source Env).
Abbreviation Stream := (source.Watcher Env).
Abbreviation Reader := (reader.Reader Values).
Abbreviation ChangeSet := source.ChangeSet.

(** ** [options.go] *)
Record Options := mkOptions {
  opt_Reader : Reader;
  opt_Source : list Source
}.

Definition Option_ := Options -> Options.

Definition WithSource (s : Source) : Option_ :=
  fun o => mkOptions (opt_Reader o) (opt_Source o ++ [s]).

Definition WithReader (r : Reader) : Option_ :=
  fun o => mkOptions r (opt_Source o).

(** ** [type watcher struct] *)
Record watcher := mkW {
  w_exit : bool;              (* [exit chan bool]: true once closed *)
  w_path : list string;
  w_value : Value;
  w_updates : chan Value
}.

(** ** [type config struct] *)
Record config := mkConfig {
  exit : bool;                          (* [exit chan bool]: true once closed *)
  opts : Options;
  mu : bool;                            (* the embedded [sync.RWMutex] *)
  set : option ChangeSet;
  vals : option Values;
  sets : list (option ChangeSet);
  sources : list Source;
  idx : Z;
  watchers : gmap Z nat                 (* [map[int]*watcher], values are addresses *)
}.

(** Program points of one [c.watch(idx, s)] goroutine. *)
Inductive watch_pc :=
| AtStart                                 (* before the first [c.Lock()] *)
| AtAcquire                               (* top of the outer [for]: [s.Watch()] is next *)
| AtPull (w : Stream) (stopped : bool)    (* inner [for]: [w.Next()] is next;
                                             [stopped]: the stop goroutine already ran [w.Stop()] *)
| Exited.

Record loop := mkLoop { l_idx : nat; l_src : Source; l_pc : watch_pc }.

(** The aggregator, the watcher objects it handed out, its goroutines and
    the outside world. *)
Record state := mkState {
  world : Env;
  cfg : config;
  heap : list watcher;              (* watcher objects, by address *)
  loops : list loop;
  removers : list (Z * nat)       (* pending [go func() { <-w.exit; ... delete(c.watchers, id) }] *)
}.

(** ** The monad of the package's code *)
Inductive outcome (A : Type) :=
| Done (a : A) (st : state)     (* returned *)
| Blocked (st : state)          (* waits and, on the lock, forever *)
| Panicked (st : state).        (* run-time panic *)
Arguments Done {A}.
Arguments Blocked {A}.
Arguments Panicked {A}.

Definition M (A : Type) := state -> outcome A.

Definition ret {A} (a : A) : M A := fun st => Done a st.
Definition bind {A B} (m : M A) (k : A -> M B) : M B :=
  fun st => match m st with
            | Done a st' => k a st'
            | Blocked st' => Blocked st'
            | Panicked st' => Panicked st'
            end.
Definition block {A} : M A := fun st => Blocked st.
Definition panic {A} : M A := fun st => Panicked st.
Definition gets {A} (f : state -> A) : M A := fun st => Done (f st) st.
Definition modify (f : state -> state) : M unit := fun st => Done tt (f st).

Notation "'do' x <- m ; k" := (bind m (fun x => k))
  (at level 10, x name, m at level 100, k at level 200, only parsing).
Notation "'do' ' p <- m ; k" := (bind m (fun x => match x with p => k end))
  (at level 10, p pattern, m at level 100, k at level 200, only parsing).
Notation "'run' m ; k" := (bind m (fun _ => k))
  (at level 10, m at level 100, k at level 200, only parsing).

(** Field updates. *)
Definition with_exit (b : bool) (c : config) : config :=
  mkConfig b (opts c) (mu c) (set c) (vals c) (sets c) (sources c) (idx c) (watchers c).
Definition with_mu (b : bool) (c : config) : config :=
  mkConfig (exit c) (opts c) b (set c) (vals c) (sets c) (sources c) (idx c) (watchers c).
Definition with_set (x : option ChangeSet) (c : config) : config :=
  mkConfig (exit c) (opts c) (mu c) x (vals c) (sets c) (sources c) (idx c) (watchers c).
Definition with_vals (x : option Values) (c : config) : config :=
  mkConfig (exit c) (opts c) (mu c) (set c) x (sets c) (sources c) (idx c) (watchers c).
Definition with_sets (x : list (option ChangeSet)) (c : config) : config :=
  mkConfig (exit c) (opts c) (mu c) (set c) (vals c) x (sources c) (idx c) (watchers c).
Definition with_sources (x : list Source) (c : config) : config :=
  mkConfig (exit c) (opts c) (mu c) (set c) (vals c) (sets c) x (idx c) (watchers c).
Definition with_idx (x : Z) (c : config) : config :=
  mkConfig (exit c) (opts c) (mu c) (set c) (vals c) (sets c) (sources c) x (watchers c).
Definition with_watchers (x : gmap Z nat) (c : config) : config :=
  mkConfig (exit c) (opts c) (mu c) (set c) (vals c) (sets c) (sources c) (idx c) x.

Definition on_cfg (f : config -> config) (st : state) : state :=
  mkState (world st) (f (cfg st)) (heap st) (loops st) (removers st).
Definition with_world (e : Env) (st : state) : state :=
  mkState e (cfg st) (heap st) (loops st) (removers st).
Definition with_heap (h : list watcher) (st : state) : state :=
  mkState (world st) (cfg st) h (loops st) (removers st).
Definition with_loops (l : list loop) (st : state) : state :=
  mkState (world st) (cfg st) (heap st) l (removers st).
Definition with_removers (r : list (Z * nat)) (st : state) : state :=
  mkState (world st) (cfg st) (heap st) (loops st) r.

(** A call into a collaborator that reads or changes the world. *)
Definition call {A} (f : Env -> A * Env) : M A :=
  fun st => let '(a, e) := f (world st) in Done a (with_world e st).

(** ** The lock *)
Definition Lock : M unit :=
  fun st => if mu (cfg st) then Blocked st else Done tt (on_cfg (with_mu true) st).
(** Unlocking a mutex that is not locked is a fatal run-time error. *)
Definition Unlock : M unit :=
  fun st => if mu (cfg st) then Done tt (on_cfg (with_mu false) st) else Panicked st.
(** A read lock is taken and released inside one atomic step; it only
    has to wait for a writer. *)
Definition RLock : M unit :=
  fun st => if mu (cfg st) then Blocked st else Done tt st.
Definition RUnlock : M unit := ret tt.

(** [for _, x := range l { f(x) }] *)
Fixpoint for_each {A} (l : list A) (f : A -> M unit) : M unit :=
  match l with
  | [] => ret tt
  | x :: rest => run f x; for_each rest f
  end.

(** ** [func (c *config) loaded() bool] *)
Definition loaded : M bool :=
  run RLock;
  do v <- gets (fun st => vals (cfg st));
  run RUnlock;
  ret (match v with Some _ => true | None => false end).

(** ** [func (c *config) update()] *)

(** The body of the [select] with [default] for one watcher: a send that
    never waits. *)
Definition deliver (v : Value) (w : watcher) : watcher :=
  mkW (w_exit w) (w_path w) (w_value w) (try_send (w_updates w) v).

(** One round of the delivery loop.  [c.vals.Get] on a nil [c.vals] is a
    method call on a nil interface.  The addresses in the registry always
    point to allocated watchers; the last case is there for totality. *)
Definition update_one (p : nat) : M unit :=
  do v <- gets (fun st => vals (cfg st));
  match v with
  | None => panic
  | Some vs =>
      do ow <- gets (fun st => heap st !! p);
      match ow with
      | Some w => modify (fun st => with_heap (<[p := deliver (Values_Get vs (w_path w)) w]> (heap st)) st)
      | None => ret tt
      end
  end.

(** The registry is walked in the order of [map_to_list]; Go's order is
    unspecified, and the rounds touch different watchers. *)
Definition update : M unit :=
  run RLock;
  do ws <- gets (fun st => (map_to_list (watchers (cfg st))).*2);
  run RUnlock;
  for_each ws update_one.

(** ** [func (c *config) sync()] *)

(** The loop over [c.sources]: a failed [Read] is skipped. *)
Fixpoint read_all (srcs : list Source) (acc : list (option ChangeSet))
  : M (list (option ChangeSet)) :=
  match srcs with
  | [] => ret acc
  | s :: rest =>
      do ' (ch, err) <- call (source.Read s);
      match err with
      | Some _ => read_all rest acc
      | None => read_all rest (acc ++ [ch])
      end
  end.

Definition sync : M unit :=
  run Lock;
  do srcs <- gets (fun st => sources (cfg st));
  do read <- read_all srcs [];
  do rdr <- gets (fun st => opt_Reader (opts (cfg st)));
  let '(merged, err) := reader.Parse rdr read in
  match err with
  | Some _ => ret tt                        (* [return]: the lock stays held *)
  | None =>
      run modify (on_cfg (with_vals (fst (reader.Values_of rdr merged))));
      run modify (on_cfg (with_set merged));
      run Unlock;
      update
  end.

(** ** [func (c *config) reload()] *)
Definition reload : M unit :=
  run Lock;
  do slots <- gets (fun st => sets (cfg st));
  do rdr <- gets (fun st => opt_Reader (opts (cfg st)));
  let '(merged, err) := reader.Parse rdr slots in
  match err with
  | Some _ => run Unlock; ret tt
  | None =>
      run modify (on_cfg (with_vals (fst (reader.Values_of rdr merged))));
      run modify (on_cfg (with_set merged));
      run Unlock;
      update
  end.

(** ** [func (c *config) Close() error] *)
Definition Close : M (option error) :=
  run modify (on_cfg (with_exit true));
  ret None.

(** ** [func (c *config) Get(path ...string) Value] *)

(** [[]byte(`{}`)] *)
Definition empty_document : bytes := [Byte.x7b; Byte.x7d].

(** [ch == nil || ch.Data == nil] *)
Definition no_data (ch : option ChangeSet) : bool :=
  match ch with
  | None => true
  | Some cs => match source.Data cs with None => true | Some _ => false end
  end.

(** The part of [Get] between [c.Lock()] and the deferred [c.Unlock()]. *)
Definition Get_locked (path : list string) : M Value :=
  do v <- gets (fun st => vals (cfg st));
  match v with
  | Some vs => ret (Values_Get vs path)
  | None =>
      do ch <- gets (fun st => set (cfg st));
      do rdr <- gets (fun st => opt_Reader (opts (cfg st)));
      do now <- gets (fun st => time_Now (world st));
      let '(v1, err) := reader.Values_of rdr ch in
      let v2 :=
        match err with
        | Some _ =>
            let ch' := if no_data ch
                       then Some (source.mkChangeSet (Some empty_document) "" "config" now)
                       else ch in
            fst (reader.Values_of rdr ch')
        | None => v1
        end in
      run modify (on_cfg (with_vals v2));
      match v2 with
      | Some vs => ret (Values_Get vs path)
      | None => ret newValue
      end
  end.

Definition Get (path : list string) : M Value :=
  do ld <- loaded;
  run (if ld then ret tt else sync);
  run Lock;
  do r <- Get_locked path;
  run Unlock;
  ret r.

(** ** [func (c *config) Bytes() []byte] *)
Definition Bytes : M bytes :=
  do ld <- loaded;
  run (if ld then ret tt else sync);
  run Lock;
  do v <- gets (fun st => vals (cfg st));
  run Unlock;
  ret (match v with Some vs => Values_Bytes vs | None => [] end).

(** ** [func (c *config) watch(idx int, s source.Source)] *)

(** What follows the return of the inner [watch] closure with an error:
    the back-off sleep (no effect on the state), [close(done)], upon which
    the stop goroutine calls [w.Stop()] unless the shutdown signal made it
    do so before, and the test of [c.exit]. *)
Definition leave_stream (w : Stream) (stopped : bool) : M watch_pc :=
  run (if stopped then ret tt else (do _ <- call (source.Stop w); ret tt));
  do closed <- gets (fun st => exit (cfg st));
  ret (if closed then Exited else AtAcquire).

(** One round of the inner [for] of the closure [watch]. *)
Definition watch_pull (i : nat) (w : Stream) (stopped : bool) : M watch_pc :=
  do ' (cs, err) <- call (source.Next w);
  match err with
  | Some _ => leave_stream w stopped
  | None =>
      run Lock;
      do slots <- gets (fun st => sets (cfg st));
      if decide (i < length slots)%nat then
        run modify (on_cfg (with_sets (<[i := cs]> slots)));     (* [c.sets[idx] = cs] *)
        do rdr <- gets (fun st => opt_Reader (opts (cfg st)));
        let '(merged, err) := reader.Parse rdr (<[i := cs]> slots) in
        match err with
        | Some _ => leave_stream w stopped      (* [return err]: the lock stays held *)
        | None =>
            run modify (on_cfg (with_vals (fst (reader.Values_of rdr merged))));
            run modify (on_cfg (with_set merged));
            run Unlock;
            run update;
            ret (AtPull w stopped)
        end
      else panic                                 (* index out of range *)
  end.

(** One step of a loop from its program point. *)
Definition watch_from (l : loop) : M watch_pc :=
  match l_pc l with
  | AtStart =>
      run Lock;
      run modify (on_cfg (fun c => with_sets (sets c ++ [None]) c));
      run Unlock;
      ret AtAcquire
  | AtAcquire =>
      do ' (w, err) <- call (source.Watch (l_src l));
      match err with
      | Some _ => ret AtAcquire                 (* sleep, [continue] *)
      | None =>
          match w with
          | Some w => ret (AtPull w false)
          | None => panic                       (* [w.Next()] on a nil interface *)
          end
      end
  | AtPull w stopped => watch_pull (l_idx l) w stopped
  | Exited => ret Exited
  end.

(** The [k]-th ingestion loop takes one step. *)
Definition watch_step (k : nat) : M unit :=
  do ol <- gets (fun st => loops st !! k);
  match ol with
  | None => ret tt
  | Some l =>
      do pc <- watch_from l;
      modify (fun st => with_loops (<[k := mkLoop (l_idx l) (l_src l) pc]> (loops st)) st)
  end.

(** [n] steps of the [k]-th loop. *)
Fixpoint watch_steps (n : nat) (k : nat) : M unit :=
  match n with
  | O => ret tt
  | S n' => run watch_step k; watch_steps n' k
  end.

(** The loops [k], ..., [k + n - 1] take one step each, in this order. *)
Fixpoint start_loops (k n : nat) : M unit :=
  match n with
  | O => ret tt
  | S n' => run watch_step k; start_loops (S k) n'
  end.

(** The stop goroutine of the [k]-th loop, woken by the shutdown signal while
    the loop is inside the inner [for]. *)
Definition stopper_step (k : nat) : M unit :=
  do ol <- gets (fun st => loops st !! k);
  do closed <- gets (fun st => exit (cfg st));
  match ol with
  | Some (mkLoop i s (AtPull w false)) =>
      if closed then
        do _ <- call (source.Stop w);
        modify (fun st => with_loops (<[k := mkLoop i s (AtPull w true)]> (loops st)) st)
      else block
  | _ => block
  end.

(** ** [func newConfig(opts ...Option) Config] *)
Definition newConfig (os : list Option_) (e : Env) : state :=
  let options := fold_left (fun o f => f o) os (mkOptions json_NewReader []) in
  mkState e
    (mkConfig false options false None None [] (opt_Source options) 0 ∅)
    []
    (imap (fun i s => mkLoop i s AtStart) (opt_Source options))
    [].

(** ** [func (c *config) Load(sources ...source.Source) error] *)
Fixpoint Load_each (ss : list Source) : M unit :=
  match ss with
  | [] => ret tt
  | s :: rest =>
      do ' (cs, _) <- call (source.Read s);
      run Lock;
      run modify (on_cfg (fun c => with_sources (sources c ++ [s]) c));
      run modify (on_cfg (fun c => with_sets (sets c ++ [cs]) c));
      do i <- gets (fun st => Nat.pred (length (sets (cfg st))));
      run Unlock;
      run modify (fun st => with_loops (loops st ++ [mkLoop i s AtStart]) st);   (* [go c.watch(idx, source)] *)
      Load_each rest
  end.

Definition Load (ss : list Source) : M (option error) :=
  run Load_each ss;
  run reload;
  ret None.

(** ** [func (c *config) Watch(path ...string) (Watcher, error)] *)

(** The result is the address of the new watcher. *)
Definition Watch (path : list string) : M (nat * option error) :=
  do value <- Get path;
  run Lock;
  do p <- gets (fun st => length (heap st));
  run modify (fun st => with_heap (heap st ++ [mkW false path value (make_chan 1)]) st);
  do id <- gets (fun st => idx (cfg st));
  run modify (on_cfg (fun c => with_watchers (<[id := p]> (watchers c)) c));
  run modify (on_cfg (with_idx (int_wrap (id + 1))));
  run Unlock;
  run modify (fun st => with_removers (removers st ++ [(id, p)]) st);
  ret (p, None).

(** The [k]-th goroutine started by [Watch]: it waits for [w.exit], then
    deletes the registration and ends. *)
Definition remover_step (k : nat) : M unit :=
  do r <- gets (fun st => removers st !! k);
  match r with
  | None => block
  | Some (id, p) =>
      do ow <- gets (fun st => heap st !! p);
      match ow with
      | Some w =>
          if w_exit w then
            run Lock;
            run modify (on_cfg (fun c => with_watchers (delete id (watchers c)) c));
            run Unlock;
            modify (fun st => with_removers (delete k (removers st)) st)
          else block
      | None => block
      end
  end.

(** ** [func (w *watcher) Stop() error] *)
Definition watcher_Stop (w : watcher) : option error * watcher :=
  (None, mkW true (w_path w) (w_value w) (w_updates w)).

(** [Stop] called through the address of the watcher. *)
Definition Stop (p : nat) : M (option error) :=
  do ow <- gets (fun st => heap st !! p);
  match ow with
  | Some w =>
      run modify (fun st => with_heap (<[p := snd (watcher_Stop w)]> (heap st)) st);
      ret (fst (watcher_Stop w))
  | None => panic
  end.

(** ** [func (w *watcher) Next() (Value, error)] *)

(** What other tasks do to a watcher while a [Next] call is under way: the
    fan-out of a merge sends a value, a consumer stops the watcher. *)
Inductive wevent :=
| EvDeliver (v : Value)
| EvStop.

Definition apply_event (w : watcher) (e : wevent) : watcher :=
  match e with
  | EvDeliver v => deliver v w
  | EvStop => snd (watcher_Stop w)
  end.

Inductive next_result :=
| NextValue (v : Value)            (* [return v, nil] *)
| NextStopped (e : error)          (* [return nil, errors.New(...)] *)
| NextWaiting.                     (* still inside the [select] *)

(** The cases of the [select] that can proceed. When both can, Go picks one
    at random: [pick_exit] is that pick. *)
Inductive selected :=
| SelNone
| SelExit
| SelUpdate (v : Value) (rest : chan Value).

Definition select_case (pick_exit : bool) (w : watcher) : selected :=
  match w_exit w, try_recv (w_updates w) with
  | false, None => SelNone
  | true, None => SelExit
  | false, Some (v, rest) => SelUpdate v rest
  | true, Some (v, rest) => if pick_exit then SelExit else SelUpdate v rest
  end.

(** [Next] along a schedule: each entry lists what the other tasks did since
    the previous pass through the [select] and gives the pick for this
    pass.  A pass with no case ready leaves the call waiting. *)
Fixpoint Next (sched : list (list wevent * bool)) (w : watcher) : next_result * watcher :=
  match sched with
  | [] => (NextWaiting, w)
  | (evs, pick_exit) :: rest =>
      let w1 := fold_left apply_event evs w in
      match select_case pick_exit w1 with
      | SelNone => Next rest w1
      | SelExit => (NextStopped "watcher stopped", w1)
      | SelUpdate v ch =>
          let w2 := mkW (w_exit w1) (w_path w1) (w_value w1) ch in
          if bytes_Equal (Value_Bytes (w_value w2)) (Value_Bytes v)
          then Next rest w2
          else (NextValue v, mkW (w_exit w2) (w_path w2) v (w_updates w2))
      end
  end.

End Aggregator.

Arguments Done {_ _} a st.
Arguments Blocked {_ _} st.
Arguments Panicked {_ _} st.

(** ** A reader for flat documents *)

(** Modelled from the spec: the Reader capability and the value tree (the
    packages [reader] and [reader/json] are not among the sources).  A
    document is a sequence of key and value bytes, [k1 v1 k2 v2 ...]; a
    buffer of odd length or a nil buffer cannot be decoded.  The merge skips
    empty slots, fails as a whole when one change set cannot be decoded, and
    lets the value of the highest index win for a key present in several
    change sets.  The aggregator itself takes any reader; this one is the
    reader of the concrete runs below. *)
Module flat.

Fixpoint decode (b : bytes) : option (list (Byte.byte * Byte.byte)) :=
  match b with
  | [] => Some []
  | k :: v :: rest => option_map (cons (k, v)) (decode rest)
  | [_] => None
  end.

Fixpoint encode (d : list (Byte.byte * Byte.byte)) : bytes :=
  match d with
  | [] => []
  | (k, v) :: rest => k :: v :: encode rest
  end.

(** The value of a key: the last binding wins. *)
Fixpoint lookup (k : Byte.byte) (d : list (Byte.byte * Byte.byte)) : option Byte.byte :=
  match d with
  | [] => None
  | (k', v) :: rest =>
      match lookup k rest with
      | Some v' => Some v'
      | None => if Byte.eqb k k' then Some v else None
      end
  end.

Definition decode_set (cs : source.ChangeSet) : option (list (Byte.byte * Byte.byte)) :=
  match source.Data cs with
  | None => None
  | Some b => decode b
  end.

(** Modelled from the spec: the merge of the Merge Engine, the documents of
    the slots in index order, later ones last; empty slots are skipped and
    one undecodable change set fails the whole merge. *)
Fixpoint merge (slots : list (option source.ChangeSet)) : option (list (Byte.byte * Byte.byte)) :=
  match slots with
  | [] => Some []
  | None :: rest => merge rest
  | Some cs :: rest =>
      match decode_set cs, merge rest with
      | Some d, Some d' => Some (d ++ d')
      | _, _ => None
      end
  end.

(** Modelled from the spec: [Parse] of the Reader capability. *)
Definition Parse (slots : list (option source.ChangeSet))
  : option source.ChangeSet * option error :=
  match merge slots with
  | Some d => (Some (source.mkChangeSet (Some (encode d)) "" "flat" 0), None)
  | None => (None, Some "malformed change set")
  end.

(** Modelled from the spec: [Values] of the Reader capability. *)
Definition Values_of (cs : option source.ChangeSet)
  : option (list (Byte.byte * Byte.byte)) * option error :=
  match cs with
  | None => (None, Some "no change set")
  | Some cs =>
      match decode_set cs with
      | Some d => (Some d, None)
      | None => (None, Some "malformed change set")
      end
  end.

(** Modelled from the spec: the path lookup of the value tree.  A path of
    one segment of one character names a key; the empty path is the whole
    document. *)
Definition Get (d : list (Byte.byte * Byte.byte)) (path : list string) : bytes :=
  match path with
  | [] => encode d
  | [String a EmptyString] =>
      match lookup (Ascii.byte_of_ascii a) d with
      | Some v => [v]
      | None => []
      end
  | _ => []
  end.

Definition Reader : reader.Reader (list (Byte.byte * Byte.byte)) :=
  reader.mkReader Parse Values_of.

End flat.

(** The aggregator over flat documents, in a world without state. *)
#[export] Instance flat_world : Collaborators := {|
  Env := unit;
  Value := bytes;
  Values := list (Byte.byte * Byte.byte);
  Value_Bytes := fun v => v;
  Values_Get := flat.Get;
  Values_Bytes := flat.encode;
  newValue := [];
  json_NewReader := flat.Reader;
  time_Now := fun _ => 0
|}.

(** A change set with the given content. *)
Definition change (b : bytes) : source.ChangeSet :=
  source.mkChangeSet (Some b) "" "test" 0.

(** A stream that delivers [cs] at every pull. *)
Definition stream_of (cs : source.ChangeSet) : source.Watcher (@Env flat_world) :=
  source.mkWatcher (fun e => ((Some cs, None), e)) (fun e => (None, e)).

(** A source whose [Read] and whose stream give [cs]. *)
Definition source_of (cs : source.ChangeSet) : source.Source (@Env flat_world) :=
  source.mkSource (fun e => ((Some cs, None), e)) "test"
                  (fun e => ((Some (stream_of cs), None), e)).

(** A source that cannot be reached: [Read] and [Watch] fail. *)
Definition source_down : source.Source (@Env flat_world) :=
  source.mkSource (fun e => ((None, Some "unreachable"), e)) "down"
                  (fun e => ((None, Some "unreachable"), e)).

(** ** What the loops of the package compute

    Closed forms of the three loops over lists in the package, used to state
    what [update], [sync] and [Load] do. *)
Section Derived.
Context `{Collaborators}.

(** The heap after the delivery loop of [update] over the addresses [ps]. *)
Definition fanout (vs : Values) (ps : list nat) (h : list watcher) : list watcher :=
  fold_left
    (fun h p =>
       match h !! p with
       | Some w => <[p := deliver (Values_Get vs (w_path w)) w]> h
       | None => h
       end)
    ps h.

(** The change sets kept by the loop of [sync], and the world after it. *)
Fixpoint read_sources (srcs : list (source.Source Env)) (acc : list (option source.ChangeSet))
    (e : Env) : list (option source.ChangeSet) * Env :=
  match srcs with
  | [] => (acc, e)
  | s :: rest =>
      match source.Read s e with
      | ((_, Some _), e') => read_sources rest acc e'
      | ((ch, None), e') => read_sources rest (acc ++ [ch]) e'
      end
  end.

(** The snapshots stored by [Load], one per source whatever the error, and
    the world after the reads. *)
Fixpoint snapshots (ss : list (source.Source Env)) (e : Env)
  : list (option source.ChangeSet) * Env :=
  match ss with
  | [] => ([], e)
  | s :: rest =>
      let '((cs, _), e') := source.Read s e in
      let '(l, e'') := snapshots rest e' in
      (cs :: l, e'')
  end.

(** The loops started by [Load] when the slot array had [n] entries. *)
Definition started (n : nat) (ss : list (source.Source Env)) : list loop :=
  imap (fun j s => mkLoop (n + j) s AtStart) ss.

(** The addresses in the registry, as [update] walks them. *)
Definition registered (c : config) : list nat := (map_to_list (watchers c)).*2.

End Derived.

(** The state a computation ends in. *)
Definition after `{Collaborators} {A} (m : M A) (st : state) : state :=
  match m st with
  | Done _ st' => st'
  | Blocked st' => st'
  | Panicked st' => st'
  end.

(** ** Concrete runs over flat documents *)

(** The documents [a=1], [d=5], and a buffer that cannot be decoded. *)
Definition doc_a1 : bytes := [Byte.x61; Byte.x31].
Definition doc_d5 : bytes := [Byte.x64; Byte.x35].
Definition doc_bad : bytes := [Byte.x61].

(** An aggregator over one source holding [a=1], just constructed. *)
Definition one_source : state :=
  newConfig [WithSource (source_of (change doc_a1))] tt.

(** The same after its ingestion loop has started. *)
Definition one_started : state := after (watch_steps 1 0) one_source.

(** The same after the loop has acquired its stream and merged a first
    delivery: the slot holds [a=1] and the value tree is loaded. *)
Definition one_live : state := after (watch_steps 3 0) one_source.

(** An aggregator over one source whose content cannot be decoded. *)
Definition one_malformed : state :=
  newConfig [WithSource (source_of (change doc_bad))] tt.

(** An aggregator over an unreachable source, its loop started, then
    closed. *)
Definition down_closed : state :=
  after Close (after (watch_steps 1 0) (newConfig [WithSource source_down] tt)).

(** [one_source] after [Watch("a")], and then after a fan-out that the
    consumer has not drained. *)
Definition one_watched : state := after (Watch ["a"%string]) one_source.
Definition one_pending : state := after update one_watched.

(** The values [1], [2] and [5]. *)
Definition val_1 : @Value flat_world := [Byte.x31].
Definition val_2 : @Value flat_world := [Byte.x32].
Definition val_5 : @Value flat_world := [Byte.x35].

(** A watcher with baseline [1]: idle, with the value [2] pending, and with
    the value [1] pending. *)
Definition idle_watcher : watcher := mkW false ["a"%string] val_1 (mkChan 1 []).
Definition pending_watcher : watcher := mkW false ["a"%string] val_1 (mkChan 1 [val_2]).
Definition undrained_watcher : watcher := mkW false ["a"%string] val_1 (mkChan 1 [val_1]).

(** ** Runs of the aggregator

    The operations a program and the goroutines of the package perform, one
    at a time, and the states they lead to. *)
Section Runs.
Context `{Collaborators}.

(** One pass of a consumer's [Next] through the [select], on the watcher at
    address [p]. *)
Definition Next_at (p : nat) (pick_exit : bool) : M next_result :=
  bind (gets (fun st => heap st !! p)) (fun ow =>
  match ow with
  | Some w =>
      bind (modify (fun st => with_heap (<[p := snd (Next [([], pick_exit)] w)]> (heap st)) st))
           (fun _ => ret (fst (Next [([], pick_exit)] w)))
  | None => panic
  end).

Inductive op :=
| OpGet (path : list string)
| OpBytes
| OpLoad (ss : list (source.Source Env))
| OpWatch (path : list string)
| OpClose
| OpStop (p : nat)
| OpNext (p : nat) (pick_exit : bool)
| OpLoop (k : nat)                (* a step of the [k]-th ingestion loop *)
| OpStopper (k : nat)             (* the stop goroutine of the [k]-th loop *)
| OpRemover (k : nat).            (* the [k]-th goroutine started by [Watch] *)

Definition run_op (o : op) : M unit :=
  match o with
  | OpGet path => bind (Get path) (fun _ => ret tt)
  | OpBytes => bind Bytes (fun _ => ret tt)
  | OpLoad ss => bind (Load ss) (fun _ => ret tt)
  | OpWatch path => bind (Watch path) (fun _ => ret tt)
  | OpClose => bind Close (fun _ => ret tt)
  | OpStop p => bind (Stop p) (fun _ => ret tt)
  | OpNext p pick => bind (Next_at p pick) (fun _ => ret tt)
  | OpLoop k => watch_step k
  | OpStopper k => stopper_step k
  | OpRemover k => remover_step k
  end.

(** The states of an aggregator made by [newConfig] and used through these
    operations. *)
Inductive reachable : state -> Prop :=
| reach_new os e : reachable (newConfig os e)
| reach_op st o : reachable st -> reachable (after (run_op o) st).

(** Every registration points to an allocated watcher. *)
Definition registry_ok (st : state) : Prop :=
  forall id p, watchers (cfg st) !! id = Some p -> (p < length (heap st))%nat.

(** No two registrations share a watcher. *)
Definition registry_inj (st : state) : Prop :=
  forall id1 id2 p,
    watchers (cfg st) !! id1 = Some p -> watchers (cfg st) !! id2 = Some p -> id1 = id2.

(** Every inbound buffer has capacity one and holds at most one value. *)
Definition buffers_ok (st : state) : Prop :=
  forall p w, heap st !! p = Some w ->
              cap (w_updates w) = 1%nat /\ (length (buf (w_updates w)) <= 1)%nat.

(** Every goroutine started by [Watch] waits on an allocated watcher. *)
Definition removers_ok (st : state) : Prop :=
  forall k id p, removers st !! k = Some (id, p) -> (p < length (heap st))%nat.

Definition wf (st : state) : Prop :=
  registry_ok st /\ registry_inj st /\ buffers_ok st /\ removers_ok st.

(** A computation keeps a property of the state, however it ends. *)
Definition keeps (P : state -> Prop) {A} (m : M A) : Prop :=
  forall st, P st -> P (after m st).

(** A computation leaves the registry, the watchers and the goroutines of
    [Watch] alone. *)
Definition frame_only {A} (m : M A) : Prop :=
  forall st,
    watchers (cfg (after m st)) = watchers (cfg st)
    /\ heap (after m st) = heap st
    /\ removers (after m st) = removers st.

End Runs.

(** A reader whose merge yields no set at all, with the value trees of the
    flat reader: the cold start then finds nothing to build a tree from. *)
Definition null_reader : reader.Reader (@Values flat_world) :=
  reader.mkReader (fun _ => (None, None)) flat.Values_of.

(** A reader whose merge succeeds and that never builds a value tree. *)
Definition blind_reader : reader.Reader (@Values flat_world) :=
  reader.mkReader flat.Parse (fun _ => (None, Some "no values")).

(** An aggregator over one source holding [a=1], with these readers. *)
Definition one_null : state :=
  newConfig [WithSource (source_of (change doc_a1)); WithReader null_reader] tt.
Definition one_blind : state :=
  newConfig [WithSource (source_of (change doc_a1)); WithReader blind_reader] tt.

(** An aggregator over the sources [a=1] and [d=5] in which only the second
    loop has started and acquired its stream. *)
Definition two_sources : state :=
  newConfig [WithSource (source_of (change doc_a1)); WithSource (source_of (change doc_d5))] tt.
Definition second_first : state := after (watch_steps 2 1) two_sources.

(** ** Package [consul]: the source in [source/consul/consul.go] *)
Module consul.

(** [api.KVPair], the fields that [Read] uses. *)
Record KVPair := mkKVPair { Key : string; Value : bytes }.

(** What the source takes from outside: the listing of the keys under a
    prefix by the Consul client ([c.client.KV().List(prefix, nil)], whose
    entries are pointers), [json.Marshal] of the collected map and the MD5
    digest. *)
Class Backend := {
  World : Type;
  KV_List : string -> World -> (list (option KVPair) * option error) * World;
  json_Marshal : gmap string bytes -> bytes * option error;
  md5_Sum : bytes -> bytes
}.

(** [type consul struct], the fields of the source itself. *)
Record consul := mkConsul { prefix : string; addr : string }.

Definition DefaultPrefix : string := "/micro/config".

(** [func (c *consul) String() string] *)
Definition String (c : consul) : string := "consul".

(** One lower-case hexadecimal digit: [0] to [9] from code 48, [a] to [f]
    from code 97. *)
Definition hex_digit (n : N) : Ascii.ascii :=
  Ascii.ascii_of_N (if (n <? 10)%N then 48 + n else 87 + n)%N.

(** [fmt.Sprintf("%x", b)] for a byte slice: two digits per byte. *)
Fixpoint hex (b : bytes) : string :=
  match b with
  | [] => EmptyString
  | x :: rest =>
      String.String (hex_digit (Byte.to_N x / 16))
        (String.String (hex_digit (Byte.to_N x mod 16)) (hex rest))
  end.

(** [for _, v := range kv { data[v.Key] = v.Value }]; reading a field of a
    nil entry is a nil dereference ([None]). *)
Fixpoint collect (kv : list (option KVPair)) (data : gmap string bytes)
  : option (gmap string bytes) :=
  match kv with
  | [] => Some data
  | None :: _ => None
  | Some v :: rest => collect rest (<[Key v := Value v]> data)
  end.

(** The value the loop leaves under a key: the one of the last entry with
    that key. *)
Fixpoint last_value (k : string) (kv : list (option KVPair)) : option bytes :=
  match kv with
  | [] => None
  | None :: rest => last_value k rest
  | Some v :: rest =>
      match last_value k rest with
      | Some x => Some x
      | None => if decide (Key v = k) then Some (Value v) else None
      end
  end.

(** [func (c *consul) Read()], returning the change set and the error;
    [None] is a run-time panic.  The change set is built without a timestamp (the zero
    time, [0] here). *)
Definition Read `{Backend} (c : consul) (e : World)
  : option ((option source.ChangeSet * option error) * World) :=
  let '((kv, err), e') := KV_List (prefix c) e in
  match err with
  | Some er => Some ((None, Some er), e')
  | None =>
      match kv with
      | [] => Some ((None, Some ("source not found: " +:+ prefix c)), e')
      | _ :: _ =>
          match collect kv ∅ with
          | None => None
          | Some data =>
              let '(b, merr) := json_Marshal data in
              match merr with
              | Some er => Some ((None, Some ("error reading source: " +:+ er)), e')
              | None =>
                  Some ((Some (source.mkChangeSet (Some b) (hex (md5_Sum b)) (String c) 0),
                         None), e')
              end
          end
      end
  end.

End consul.

(** A stand-in for the Consul client, for concrete runs: the prefix
    [/micro/config] lists the key [a] twice, every other prefix is empty;
    the map is written as its values in key order, and the digest of a
    buffer is its first two bytes. *)
#[export] Instance listing_backend : consul.Backend := {|
  consul.World := unit;
  consul.KV_List := fun p e =>
    if decide (p = "/micro/config"%string)
    then (([Some (consul.mkKVPair "a" [Byte.x31]); Some (consul.mkKVPair "a" [Byte.x32])],
           None), e)
    else (([], None), e);
  consul.json_Marshal := fun data => (concat ((map_to_list data).*2), None);
  consul.md5_Sum := take 2
|}.

(** [one_watched] at the moment a merge has stored a new tree, [a=2], and
    [update] is about to run. *)
Definition one_changed : state :=
  on_cfg (with_vals (Some [(Byte.x61, Byte.x32)])) one_watched.

(** A source whose stream ends every pull with an error, and an aggregator
    over it whose loop has acquired the stream. *)
Definition stream_broken : source.Watcher (@Env flat_world) :=
  source.mkWatcher (fun e => ((None, Some "stream closed"%string), e)) (fun e => (None, e)).
Definition source_broken : source.Source (@Env flat_world) :=
  source.mkSource (fun e => ((None, Some "unreachable"%string), e)) "broken"
                  (fun e => ((Some stream_broken, None), e)).
Definition broken_pulling : state :=
  after (watch_steps 2 0) (newConfig [WithSource source_broken] tt).

(** * Properties *)

Section Properties.
Context `{Collaborators}.

(** ** Bytes and channels *)

Lemma bytes_Equal_eq (a b : bytes) : bytes_Equal a b = true <-> a = b.
Proof.
  revert b; induction a as [|x a IH]; intros [|y b]; simpl; split;
    try congruence; try done.
  - intros [Hxy Hab]%andb_prop. apply Byte.byte_dec_bl in Hxy.
    apply IH in Hab. by subst.
  - intros [= -> ->]. apply andb_true_intro; split.
    + by apply Byte.byte_dec_lb.
    + by apply IH.
Qed.

Lemma bytes_Equal_neq (a b : bytes) : bytes_Equal a b = false <-> a <> b.
Proof.
  split.
  - intros Hf Heq. apply bytes_Equal_eq in Heq. congruence.
  - intros Hne. destruct (bytes_Equal a b) eqn:E; [|done].
    apply bytes_Equal_eq in E. contradiction.
Qed.

Lemma try_send_cap {A} (ch : chan A) v : cap (try_send ch v) = cap ch.
Proof. unfold try_send. by destruct (_ <? _)%nat. Qed.

(** A channel of capacity one with a queued element refuses the send. *)
Lemma try_send_full {A} (ch : chan A) v :
  cap ch = 1%nat -> buf ch <> [] -> try_send ch v = ch.
Proof.
  intros Hc Hb. unfold try_send. rewrite Hc.
  destruct (buf ch) as [|x l]; [done|]. simpl.
  by destruct (length l).
Qed.

Lemma try_send_empty {A} (ch : chan A) v :
  cap ch = 1%nat -> buf ch = [] -> try_send ch v = mkChan 1 [v].
Proof. intros Hc Hb. unfold try_send. by rewrite Hc, Hb. Qed.

(** With capacity one a second send of a round changes nothing. *)
Lemma try_send_twice {A} (ch : chan A) v v' :
  cap ch = 1%nat -> try_send (try_send ch v) v' = try_send ch v.
Proof.
  intros Hc. destruct (buf ch) as [|x l] eqn:Hb.
  - rewrite (try_send_empty ch v Hc Hb). done.
  - rewrite (try_send_full ch v Hc) by (rewrite Hb; done).
    apply try_send_full; [done|]. by rewrite Hb.
Qed.

(** ** Watchers: [Stop] and [Next] *)

Lemma watcher_Stop_closed (w : watcher) :
  w_exit w = true -> snd (watcher_Stop w) = w.
Proof. destruct w as [e p v u]. simpl. by intros ->. Qed.

Lemma apply_event_value (w : watcher) e :
  w_value (apply_event w e) = w_value w /\ w_path (apply_event w e) = w_path w.
Proof. by destruct e. Qed.

Lemma apply_events_value evs (w : watcher) :
  w_value (fold_left apply_event evs w) = w_value w
  /\ w_path (fold_left apply_event evs w) = w_path w.
Proof.
  revert w; induction evs as [|e evs IH]; intros w; simpl; [done|].
  destruct (IH (apply_event w e)) as [-> ->]. apply apply_event_value.
Qed.

Lemma apply_event_exit (w : watcher) e :
  w_exit w = true -> w_exit (apply_event w e) = true.
Proof. by destruct e. Qed.

Lemma apply_events_exit evs (w : watcher) :
  w_exit w = true -> w_exit (fold_left apply_event evs w) = true.
Proof.
  revert w; induction evs as [|e evs IH]; intros w Hw; simpl; [done|].
  by apply IH, apply_event_exit.
Qed.

(** Stop events leave a stopped watcher as it is. *)
Lemma apply_stops evs (w : watcher) :
  w_exit w = true -> Forall (fun e => e = EvStop) evs ->
  fold_left apply_event evs w = w.
Proof.
  intros Hw Hall. induction Hall as [|e evs -> _ IH]; [done|].
  cbn [fold_left apply_event]. by rewrite (watcher_Stop_closed w Hw).
Qed.

(** What a pass of the [select] can take. *)
Lemma select_case_update pick (w : watcher) v ch :
  select_case pick w = SelUpdate v ch -> try_recv (w_updates w) = Some (v, ch).
Proof.
  unfold select_case.
  destruct (w_exit w), (try_recv (w_updates w)) as [[v' ch']|], pick;
    congruence.
Qed.

(** A returned value differs from the value held before the call, and is
    the value held after it. *)
Lemma Next_value sched (w : watcher) v w' :
  Next sched w = (NextValue v, w') ->
  Value_Bytes v <> Value_Bytes (w_value w) /\ w_value w' = v.
Proof.
  revert w. induction sched as [|[evs pick] rest IH]; intros w; simpl; [done|].
  destruct (apply_events_value evs w) as [Hv _].
  destruct (select_case pick _) as [| |u ch] eqn:Hsel.
  - intros Hn. apply IH in Hn. by rewrite Hv in Hn.
  - done.
  - simpl. destruct (bytes_Equal _ _) eqn:Hb.
    + intros Hn. apply IH in Hn. simpl in Hn. by rewrite Hv in Hn.
    + intros [= <- <-]. simpl. split; [|done].
      apply bytes_Equal_neq in Hb. rewrite Hv in Hb. congruence.
Qed.

Lemma Next_exit sched (w : watcher) :
  w_exit w = true -> w_exit (snd (Next sched w)) = true.
Proof.
  revert w. induction sched as [|[evs pick] rest IH]; intros w Hw; simpl; [done|].
  pose proof (apply_events_exit evs w Hw) as He.
  destruct (select_case pick _) as [| |u ch] eqn:Hsel; simpl.
  - by apply IH.
  - done.
  - destruct (bytes_Equal _ _); simpl; [by apply IH|done].
Qed.

(** ** Reasoning about the monad *)

Ltac open_state st :=
  destruct st as [?e [?ex ?o ?m ?s ?v ?ss ?srcs ?i ?ws] ?h ?l ?r]; simpl in *; subst.

Lemma bind_Done {A B} (m : M A) (k : A -> M B) st a st' :
  m st = Done a st' -> bind m k st = k a st'.
Proof. unfold bind. by intros ->. Qed.

Lemma bind_inv {A B} (m : M A) (k : A -> M B) st b st' :
  bind m k st = Done b st' ->
  exists a st1, m st = Done a st1 /\ k a st1 = Done b st'.
Proof.
  unfold bind. destruct (m st) as [a st1| |]; [|done|done].
  intros Hk. by exists a, st1.
Qed.

(** ** Fan-out *)

Lemma deliver_path v (w : watcher) : w_path (deliver v w) = w_path w.
Proof. done. Qed.

Lemma deliver_twice v v' (w : watcher) :
  cap (w_updates w) = 1%nat -> deliver v' (deliver v w) = deliver v w.
Proof. intros Hc. unfold deliver. simpl. by rewrite try_send_twice. Qed.

Lemma fanout_length vs ps h : length (fanout vs ps h) = length h.
Proof.
  revert h; induction ps as [|p ps IH]; intros h; [done|].
  unfold fanout in *. simpl. rewrite IH.
  destruct (h !! p); [apply length_insert|done].
Qed.

(** A watcher that is not in the walk is left alone. *)
Lemma fanout_other vs ps h p :
  p ∉ ps -> fanout vs ps h !! p = h !! p.
Proof.
  revert h; induction ps as [|q ps IH]; intros h Hp; [done|].
  apply not_elem_of_cons in Hp as [Hpq Hp].
  unfold fanout in *. simpl. rewrite IH by done.
  destruct (h !! q); [|done]. by apply list_lookup_insert_ne.
Qed.

(** Once the value is in a buffer of capacity one, the rest of the walk
    leaves the watcher as it is. *)
Lemma fanout_delivered vs ps h p (w : watcher) :
  cap (w_updates w) = 1%nat ->
  h !! p = Some (deliver (Values_Get vs (w_path w)) w) ->
  fanout vs ps h !! p = Some (deliver (Values_Get vs (w_path w)) w).
Proof.
  intros Hc. revert h; induction ps as [|q ps IH]; intros h Hp; [done|].
  unfold fanout in *. simpl. apply IH.
  destruct (decide (q = p)) as [->|Hne].
  - rewrite Hp. rewrite deliver_path, deliver_twice by done.
    apply list_lookup_insert_eq. by eapply lookup_lt_Some.
  - destruct (h !! q); [|done]. by rewrite list_lookup_insert_ne.
Qed.

(** A watcher in the walk gets the value at its path by a send that does
    not wait. *)
Lemma fanout_lookup vs ps h p (w : watcher) :
  cap (w_updates w) = 1%nat -> h !! p = Some w -> p ∈ ps ->
  fanout vs ps h !! p = Some (deliver (Values_Get vs (w_path w)) w).
Proof.
  intros Hc. revert h; induction ps as [|q ps IH]; intros h Hp Hin.
  - by apply elem_of_nil in Hin.
  - destruct (decide (q = p)) as [->|Hne].
    + change (fanout vs (p :: ps) h) with
        (fanout vs ps (match h !! p with
                       | Some w => <[p := deliver (Values_Get vs (w_path w)) w]> h
                       | None => h end)).
      rewrite Hp. apply fanout_delivered; [done|].
      apply list_lookup_insert_eq. by eapply lookup_lt_Some.
    + apply elem_of_cons in Hin as [->|Hin]; [done|].
      change (fanout vs (q :: ps) h) with
        (fanout vs ps (match h !! q with
                       | Some w => <[q := deliver (Values_Get vs (w_path w)) w]> h
                       | None => h end)).
      apply IH; [|done]. destruct (h !! q); [|done].
      by rewrite list_lookup_insert_ne.
Qed.

(** The delivery loop with a value tree at hand. *)
Lemma for_each_update_one vs ps st :
  vals (cfg st) = Some vs ->
  for_each ps update_one st = Done tt (with_heap (fanout vs ps (heap st)) st).
Proof.
  revert st; induction ps as [|p ps IH]; intros st Hv.
  - by destruct st.
  - cbn [for_each]. unfold bind at 1. unfold update_one at 1.
    unfold bind, gets. rewrite Hv.
    destruct (heap st !! p) as [w|] eqn:Hp.
    + unfold modify. rewrite IH by done.
      unfold fanout. simpl. by rewrite Hp.
    + unfold ret. rewrite IH by done. unfold fanout. simpl. by rewrite Hp.
Qed.

(** [update] with the lock free and a value tree at hand. *)
Lemma update_Done vs st :
  mu (cfg st) = false -> vals (cfg st) = Some vs ->
  update st = Done tt (with_heap (fanout vs (registered (cfg st)) (heap st)) st).
Proof.
  intros Hm Hv. unfold update, bind, RLock, RUnlock, gets, ret. rewrite Hm.
  by apply for_each_update_one.
Qed.

(** Without a value tree [update] returns only when nobody is registered. *)
Lemma update_nil st :
  mu (cfg st) = false -> vals (cfg st) = None ->
  update st = if decide (registered (cfg st) = []) then Done tt st else Panicked st.
Proof.
  intros Hm Hv. unfold update, bind, RLock, RUnlock, gets, ret. rewrite Hm.
  fold (registered (cfg st)). destruct (registered (cfg st)) as [|p ps]; [done|].
  simpl. unfold bind, update_one, bind, gets. by rewrite Hv.
Qed.

(** Whatever [update] does, it returns with only the heap changed. *)
Lemma update_frame st st' :
  update st = Done tt st' ->
  exists h', st' = with_heap h' st /\ length h' = length (heap st).
Proof.
  intros Hu. destruct (mu (cfg st)) eqn:Hm.
  - unfold update, bind, RLock in Hu. by rewrite Hm in Hu.
  - destruct (vals (cfg st)) as [vs|] eqn:Hv.
    + rewrite (update_Done vs) in Hu by done. injection Hu as <-.
      eexists; split; [done|]. apply fanout_length.
    + rewrite update_nil in Hu by done. case_decide; [|done].
      injection Hu as <-. exists (heap st). by destruct st.
Qed.

(** ** The cold-start path *)

Lemma read_all_Done srcs acc st :
  read_all srcs acc st =
  Done (fst (read_sources srcs acc (world st)))
       (with_world (snd (read_sources srcs acc (world st))) st).
Proof.
  revert acc st; induction srcs as [|s srcs IH]; intros acc st.
  - by destruct st.
  - cbn [read_all read_sources]. unfold bind at 1, call.
    destruct (source.Read s (world st)) as [[ch [err|]] e'];
      rewrite IH; by destruct st.
Qed.

(** [sync] from a free lock, by the outcome of the merge of what was read:
    when the merge fails it returns with the lock held. *)
Lemma sync_failed st err :
  mu (cfg st) = false ->
  snd (reader.Parse (opt_Reader (opts (cfg st)))
         (fst (read_sources (sources (cfg st)) [] (world st)))) = Some err ->
  sync st = Done tt (with_world (snd (read_sources (sources (cfg st)) [] (world st)))
                       (on_cfg (with_mu true) st)).
Proof.
  intros Hm Hp. unfold sync, bind at 1, Lock. rewrite Hm.
  unfold bind at 1, gets. unfold bind at 1. rewrite read_all_Done.
  unfold bind, gets. open_state st.
  destruct (reader.Parse _ _) as [merged e0]. simpl in Hp. by subst.
Qed.

(** [Get] on a loaded aggregator reads the value tree and changes nothing. *)
Lemma Get_loaded path st vs :
  mu (cfg st) = false -> vals (cfg st) = Some vs ->
  Get path st = Done (Values_Get vs path) st.
Proof.
  intros Hm Hv. open_state st.
  unfold Get, loaded, Get_locked, bind, RLock, RUnlock, Lock, Unlock, gets, ret.
  done.
Qed.

(** No path of the package releases a lock it did not take: with the lock
    left held, every operation that needs it stops at its first [Lock] or
    [RLock], so the lock stays held. *)
Lemma held_lock_blocks st path :
  mu (cfg st) = true ->
  loaded st = Blocked st
  /\ update st = Blocked st
  /\ sync st = Blocked st
  /\ reload st = Blocked st
  /\ Get path st = Blocked st
  /\ Bytes st = Blocked st
  /\ Watch path st = Blocked st
  /\ (forall k i s, loops st !! k = Some (mkLoop i s AtStart) -> watch_step k st = Blocked st)
  /\ (forall k id p w, removers st !! k = Some (id, p) -> heap st !! p = Some w ->
                       w_exit w = true -> remover_step k st = Blocked st).
Proof.
  intros Hm.
  assert (Hl : loaded st = Blocked st).
  { unfold loaded, bind, RLock. by rewrite Hm. }
  assert (HG : Get path st = Blocked st).
  { unfold Get, bind at 1. by rewrite Hl. }
  repeat split; try done.
  - unfold update, bind, RLock. by rewrite Hm.
  - unfold sync, bind, Lock. by rewrite Hm.
  - unfold reload, bind, Lock. by rewrite Hm.
  - unfold Bytes, bind at 1. by rewrite Hl.
  - unfold Watch, bind at 1. by rewrite HG.
  - intros k i s Hk. unfold watch_step, bind at 1, gets. rewrite Hk.
    unfold bind at 1, watch_from. simpl. unfold bind, Lock. by rewrite Hm.
  - intros k id p w Hk Hp Hw. unfold remover_step, bind at 1, gets. rewrite Hk.
    unfold bind at 1. rewrite Hp, Hw. unfold bind, Lock. by rewrite Hm.
Qed.

(** ** [reload] *)

Lemma reload_failed st err :
  mu (cfg st) = false ->
  snd (reader.Parse (opt_Reader (opts (cfg st))) (sets (cfg st))) = Some err ->
  reload st = Done tt st.
Proof.
  intros Hm Hp. open_state st.
  unfold reload, bind, Lock, Unlock, gets, ret. simpl.
  destruct (reader.Parse _ _) as [merged e0]. simpl in Hp. by subst.
Qed.

Lemma reload_merged st merged :
  mu (cfg st) = false ->
  reader.Parse (opt_Reader (opts (cfg st))) (sets (cfg st)) = (merged, None) ->
  reload st =
  update (on_cfg (fun c => with_set merged
                    (with_vals (fst (reader.Values_of (opt_Reader (opts c)) merged)) c)) st).
Proof.
  intros Hm Hp. open_state st.
  unfold reload, bind, Lock, Unlock, gets, modify, ret. simpl.
  by rewrite Hp.
Qed.

(** Whenever [reload] returns, the lock is free again and only the merged
    set, the value tree and the buffers of the watchers may have changed. *)
Lemma reload_frame st st' :
  mu (cfg st) = false -> reload st = Done tt st' ->
  mu (cfg st') = false /\ sets (cfg st') = sets (cfg st)
  /\ sources (cfg st') = sources (cfg st) /\ loops st' = loops st
  /\ world st' = world st /\ opts (cfg st') = opts (cfg st)
  /\ length (heap st') = length (heap st).
Proof.
  intros Hm Hr.
  destruct (reader.Parse (opt_Reader (opts (cfg st))) (sets (cfg st)))
    as [merged [err|]] eqn:Hp.
  - rewrite (reload_failed st err) in Hr by (by rewrite ?Hp). by injection Hr as <-.
  - rewrite (reload_merged st merged) in Hr by done.
    apply update_frame in Hr as (h' & -> & Hlen). by destruct st.
Qed.

(** ** [Load] *)

Lemma started_cons n s ss :
  started n (s :: ss) = mkLoop n s AtStart :: started (S n) ss.
Proof.
  unfold started. simpl. rewrite Nat.add_0_r. f_equal.
  apply imap_ext. intros j x _. simpl. f_equal. lia.
Qed.

(** The loop of [Load] from a free lock: one read, one source, one slot and
    one started ingestion loop per argument, in order. *)
Lemma Load_each_Done ss st :
  mu (cfg st) = false ->
  Load_each ss st =
  Done tt
    (mkState (snd (snapshots ss (world st)))
       (with_sets (sets (cfg st) ++ fst (snapshots ss (world st)))
          (with_sources (sources (cfg st) ++ ss) (cfg st)))
       (heap st)
       (loops st ++ started (length (sets (cfg st))) ss)
       (removers st)).
Proof.
  revert st; induction ss as [|s ss IH]; intros st Hm.
  - open_state st. unfold started. simpl. by rewrite !app_nil_r.
  - cbn [Load_each snapshots]. unfold bind at 1, call.
    destruct (source.Read s (world st)) as [[cs err] e'] eqn:Hr.
    open_state st.
    unfold bind at 1, Lock. simpl.
    unfold bind at 1, modify. unfold bind at 1, modify.
    unfold bind at 1, gets. unfold bind at 1, Unlock. simpl.
    unfold bind at 1, modify. simpl.
    rewrite IH by done. simpl.
    destruct (snapshots ss e') as [rest e''] eqn:Hs. simpl.
    rewrite started_cons, length_app. simpl.
    rewrite Nat.add_1_r. simpl.
    by rewrite <- !app_assoc.
Qed.

(** ** The ingestion loop *)

Lemma leave_stream_Done w stopped st :
  exists e', leave_stream w stopped st =
             Done (if exit (cfg st) then Exited else AtAcquire) (with_world e' st).
Proof.
  unfold leave_stream. destruct stopped.
  - exists (world st). unfold bind, ret, gets. by destruct st.
  - unfold bind at 1. unfold bind at 1, call.
    destruct (source.Stop w (world st)) as [r e'] eqn:Hs. exists e'.
    unfold ret, bind, gets. by destruct st.
Qed.

(** C1, as amended: when a delivery makes the merge fail, the merged set and
    the value tree stay as they were and nothing is fanned out; the delivery
    stays in the slot of its source, the other slots are unchanged; the pull
    loop on that stream ends with the error, and the outer loop goes back to
    acquiring a stream, or exits when shutdown has been signalled. *)
Theorem watch_pull_merge_failure st i w stopped cs e' err :
  mu (cfg st) = false ->
  source.Next w (world st) = ((cs, None), e') ->
  (i < length (sets (cfg st)))%nat ->
  snd (reader.Parse (opt_Reader (opts (cfg st))) (<[i := cs]> (sets (cfg st)))) = Some err ->
  exists pc st',
    watch_pull i w stopped st = Done pc st'
    /\ set (cfg st') = set (cfg st)
    /\ vals (cfg st') = vals (cfg st)
    /\ heap st' = heap st
    /\ sets (cfg st') = <[i := cs]> (sets (cfg st))
    /\ pc = (if exit (cfg st) then Exited else AtAcquire).
Proof.
  intros Hm Hn Hi Hp.
  unfold watch_pull, bind at 1, call. rewrite Hn.
  unfold bind at 1, Lock. open_state st.
  unfold bind at 1, gets. simpl. rewrite decide_True by done.
  unfold bind at 1, modify. unfold bind at 1, gets. simpl.
  destruct (reader.Parse _ _) as [merged e0]. simpl in Hp. subst e0.
  match goal with |- context [leave_stream w stopped ?s] =>
    destruct (leave_stream_Done w stopped s) as [e2 ->] end.
  simpl. eauto 10.
Qed.

(** C2: with the lock free and nothing loaded yet, when the merge of the
    bootstrap reads fails, [sync] returns with the lock held and [Get] then
    waits on [c.Lock()] for good: it returns no value at all. *)
Theorem Get_blocks_after_failed_bootstrap path st err :
  mu (cfg st) = false ->
  vals (cfg st) = None ->
  snd (reader.Parse (opt_Reader (opts (cfg st)))
         (fst (read_sources (sources (cfg st)) [] (world st)))) = Some err ->
  Get path st =
  Blocked (with_world (snd (read_sources (sources (cfg st)) [] (world st)))
             (on_cfg (with_mu true) st)).
Proof.
  intros Hm Hv Hp. unfold Get.
  unfold bind at 1, loaded, bind, RLock, RUnlock, gets, ret. rewrite Hm, Hv.
  rewrite (sync_failed st err Hm Hp). unfold Lock. by destruct st as [? [] ? ? ?].
Qed.

(** C3, as amended: on a stopped watcher whose buffer is empty, a [Next]
    call to which nothing more is delivered returns the stop error at its
    first pass and leaves the watcher as it is, so every later call does the
    same; and whatever is delivered, the watcher stays stopped. *)
Theorem Next_after_Stop_drained (w : watcher) evs pick rest :
  w_exit w = true ->
  buf (w_updates w) = [] ->
  Forall (fun e => e = EvStop) evs ->
  Next ((evs, pick) :: rest) w = (NextStopped "watcher stopped", w)
  /\ forall sched, w_exit (snd (Next sched w)) = true.
Proof.
  intros Hw Hb Hevs. split; [|intros sched; by apply Next_exit].
  cbn [Next]. rewrite (apply_stops evs w Hw Hevs).
  unfold select_case, try_recv. by rewrite Hw, Hb.
Qed.

(** ** Slots and sources *)

Lemma watch_step_start st k i s :
  mu (cfg st) = false ->
  loops st !! k = Some (mkLoop i s AtStart) ->
  watch_step k st =
  Done tt (with_loops (<[k := mkLoop i s AtAcquire]> (loops st))
             (on_cfg (fun c => with_sets (sets c ++ [None]) c) st)).
Proof.
  intros Hm Hk. unfold watch_step, bind at 1, gets. rewrite Hk.
  open_state st. unfold bind at 1. unfold watch_from. simpl.
  unfold bind, Lock, Unlock, modify, ret. simpl. done.
Qed.

(** Starting the loops [k], [k+1], ... one after the other. *)
Lemma start_loops_from n k st :
  mu (cfg st) = false ->
  (forall j, (k <= j < k + n)%nat ->
             exists l, loops st !! j = Some l /\ l_pc l = AtStart) ->
  exists st',
    start_loops k n st = Done tt st'
    /\ mu (cfg st') = false
    /\ sources (cfg st') = sources (cfg st)
    /\ length (sets (cfg st')) = (length (sets (cfg st)) + n)%nat.
Proof.
  revert k st. induction n as [|n IH]; intros k st Hm Hl.
  - exists st. unfold start_loops, ret. repeat split; [done|lia].
  - destruct (Hl k ltac:(lia)) as ([i s pc] & Hk & Hpc). simpl in Hpc. subst pc.
    cbn [start_loops]. unfold bind at 1.
    rewrite (watch_step_start st k i s Hm Hk).
    edestruct (IH (S k)) as (st' & Hrun & Hm' & Hsrc & Hlen); last first.
    + exists st'. split; [exact Hrun|]. split; [done|].
      split; [by rewrite Hsrc; destruct st as [? [] ? ? ?]|].
      rewrite Hlen. destruct st as [? [] ? ? ?]. simpl. rewrite length_app. simpl. lia.
    + intros j Hj. destruct (Hl j ltac:(lia)) as (l & Hj' & Hpc).
      exists l. split; [|done]. simpl.
      rewrite list_lookup_insert_ne by lia. by destruct st.
    + by destruct st as [? [] ? ? ?].
Qed.

(** Construction does keep one slot per source: once the loops started by
    [newConfig] have all taken their first step, the slot array is as long
    as the source list. *)
Lemma newConfig_slots os e :
  exists st',
    start_loops 0 (length (sources (cfg (newConfig os e)))) (newConfig os e) = Done tt st'
    /\ length (sets (cfg st')) = length (sources (cfg st')).
Proof.
  destruct (start_loops_from (length (sources (cfg (newConfig os e)))) 0 (newConfig os e))
    as (st' & Hrun & _ & Hsrc & Hlen).
  - done.
  - intros j Hj. simpl in *.
    destruct (lookup_lt_is_Some_2
                (opt_Source (fold_left (fun o f => f o) os (mkOptions json_NewReader []))) j)
      as [s Hs]; [lia|].
    exists (mkLoop j s AtStart). split; [|done].
    rewrite list_lookup_imap, Hs. done.
  - exists st'. split; [exact Hrun|]. rewrite Hlen, Hsrc. done.
Qed.

(** C4: [Load] of one source appends one source and one slot, and the
    ingestion loop it starts appends a second slot: the slot array has grown
    by two, the source list by one. *)
Theorem Load_grows_slots_by_two st s e st' :
  mu (cfg st) = false ->
  Load [s] st = Done e st' ->
  exists st'',
    watch_step (length (loops st)) st' = Done tt st''
    /\ sources (cfg st'') = sources (cfg st) ++ [s]
    /\ length (sets (cfg st'')) = S (S (length (sets (cfg st)))).
Proof.
  intros Hm HL. unfold Load in HL.
  apply bind_inv in HL as (u & st1 & H1 & HL).
  apply bind_inv in HL as (u' & st2 & H2 & H3).
  unfold ret in H3. injection H3 as _ H3. subst st2.
  rewrite Load_each_Done in H1 by done. injection H1 as H1. subst st1.
  destruct u'. apply reload_frame in H2 as (Hm2 & Hs2 & Hsrc2 & Hl2 & _); [|exact Hm].
  simpl in *.
  eexists. split.
  - apply (watch_step_start _ _ (length (sets (cfg st))) s Hm2).
    rewrite Hl2. rewrite lookup_app_r by done. rewrite Nat.sub_diag.
    unfold started. simpl. by rewrite Nat.add_0_r.
  - simpl. rewrite Hsrc2, Hs2. split; [done|].
    destruct (source.Read s (world st)) as [[cs err] e']. simpl.
    rewrite !length_app. simpl. lia.
Qed.

(** ** Shutdown *)

(** The path through a stream does test [c.exit]: when the pull ends with an
    error after [Close], the loop exits. *)
Lemma watch_exits_after_stream_error st i w stopped cs err e' :
  exit (cfg st) = true ->
  source.Next w (world st) = ((cs, Some err), e') ->
  exists st', watch_pull i w stopped st = Done Exited st'.
Proof.
  intros Hex Hn. unfold watch_pull, bind at 1, call. rewrite Hn.
  match goal with |- context [leave_stream w stopped ?s] =>
    destruct (leave_stream_Done w stopped s) as [e2 ->] end.
  simpl. rewrite Hex. by eexists.
Qed.

(** C5: a loop whose source never yields a stream stays at the top of the
    outer [for] for any number of steps: it sleeps and takes [continue],
    which skips the test of [c.exit], so it does not exit after [Close]. *)
Theorem watch_never_exits_while_acquisition_fails n st k i s :
  exit (cfg st) = true ->
  loops st !! k = Some (mkLoop i s AtAcquire) ->
  (forall e, snd (fst (source.Watch s e)) <> None) ->
  exists st',
    watch_steps n k st = Done tt st'
    /\ loops st' !! k = Some (mkLoop i s AtAcquire)
    /\ exit (cfg st') = true.
Proof.
  intros Hex Hk Hfail. revert st Hex Hk.
  induction n as [|n IH]; intros st Hex Hk.
  - exists st. by unfold watch_steps, ret.
  - cbn [watch_steps]. unfold bind at 1.
    unfold watch_step at 1. unfold bind at 1, gets. rewrite Hk.
    unfold bind at 1. unfold watch_from. simpl.
    unfold bind at 1, call.
    destruct (source.Watch s (world st)) as [[w err] e'] eqn:Hw.
    specialize (Hfail (world st)). rewrite Hw in Hfail. simpl in Hfail.
    destruct err as [err|]; [|done].
    unfold ret, modify. simpl.
    apply IH; simpl; [done|].
    rewrite list_insert_id by done. done.
Qed.

(** ** Consumers *)

(** [Watch] allocates a watcher that is not stopped, holds the value read by
    [Get] as its baseline and has an empty inbound buffer of capacity one. *)
Lemma Watch_allocates path st p e st' :
  Watch path st = Done (p, e) st' ->
  e = None
  /\ exists v st1,
       Get path st = Done v st1
       /\ heap st' !! p = Some (mkW false path v (mkChan 1 [])).
Proof.
  unfold Watch. intros HW.
  apply bind_inv in HW as (v & st1 & HG & HW).
  unfold bind at 1, Lock in HW. destruct (mu (cfg st1)); [done|].
  unfold bind, gets, modify, Unlock, ret in HW. simpl in HW.
  injection HW as <- <- <-. split; [done|]. exists v, st1. split; [done|].
  simpl. rewrite lookup_app_r by done. by rewrite Nat.sub_diag.
Qed.

(** C6: a value returned by [Next] differs in bytes from the value the
    watcher held before the call and becomes the value held; so two values
    returned in a row differ; a received value with the same bytes as the
    held one is dropped inside the call, which goes on waiting; and the
    value held by a watcher fresh from [Watch] is the one [Get] returned. *)
Theorem Next_never_repeats sched (w : watcher) v w' :
  Next sched w = (NextValue v, w') ->
  Value_Bytes v <> Value_Bytes (w_value w)
  /\ w_value w' = v
  /\ (forall sched2 v2 w2,
        Next sched2 w' = (NextValue v2, w2) -> Value_Bytes v2 <> Value_Bytes v)
  /\ (forall pick rest (w0 : watcher) u ch,
        select_case pick w0 = SelUpdate u ch ->
        Value_Bytes u = Value_Bytes (w_value w0) ->
        Next (([], pick) :: rest) w0 =
        Next rest (mkW (w_exit w0) (w_path w0) (w_value w0) ch))
  /\ (forall path st p e st1,
        Watch path st = Done (p, e) st1 ->
        exists base st0 w1,
          Get path st = Done base st0 /\ heap st1 !! p = Some w1 /\ w_value w1 = base).
Proof.
  intros Hn. destruct (Next_value _ _ _ _ Hn) as [Hne Hv].
  split; [done|]. split; [done|]. split; [|split].
  3: { intros path st p e st1 HW.
       apply Watch_allocates in HW as (_ & base & st0 & HG & Hp).
       exists base, st0. eexists. split; [done|]. split; [exact Hp|done]. }
  - intros sched2 v2 w2 Hn2. apply Next_value in Hn2 as [Hne2 _].
    by rewrite Hv in Hne2.
  - intros pick rest w0 u ch Hsel Hsame. cbn [Next fold_left]. rewrite Hsel.
    simpl. rewrite Hsame.
    by rewrite (proj2 (bytes_Equal_eq _ _) eq_refl).
Qed.

(** C7: the inbound buffer made by [Watch] has capacity one; the fan-out of
    [update] returns without waiting, and a registered watcher with such a
    buffer gets the new value only when the buffer is empty: an occupied
    buffer, and the watcher with it, is left exactly as it was. *)
Theorem update_drops_on_full st vs id p (w : watcher) :
  mu (cfg st) = false ->
  vals (cfg st) = Some vs ->
  watchers (cfg st) !! id = Some p ->
  heap st !! p = Some w ->
  cap (w_updates w) = 1%nat ->
  exists st',
    update st = Done tt st'
    /\ cfg st' = cfg st
    /\ heap st' !! p = Some (deliver (Values_Get vs (w_path w)) w)
    /\ (buf (w_updates w) <> [] -> heap st' !! p = Some w)
    /\ (buf (w_updates w) = [] ->
        heap st' !! p =
        Some (mkW (w_exit w) (w_path w) (w_value w) (mkChan 1 [Values_Get vs (w_path w)])))
    /\ (forall path st0 q e st1,
          Watch path st0 = Done (q, e) st1 ->
          exists w1, heap st1 !! q = Some w1 /\ w_updates w1 = make_chan 1).
Proof.
  intros Hm Hv Hreg Hp Hc.
  assert (Hin : p ∈ registered (cfg st)).
  { unfold registered. apply list_elem_of_fmap. exists (id, p). split; [done|].
    by apply elem_of_map_to_list. }
  pose proof (fanout_lookup vs _ _ _ _ Hc Hp Hin) as Hf.
  eexists. split; [by apply update_Done|].
  split; [by destruct st|]. simpl. split; [done|]. split; [|split].
  - intros Hb. rewrite Hf. unfold deliver. rewrite try_send_full by done.
    by destruct w.
  - intros Hb. rewrite Hf. unfold deliver. by rewrite try_send_empty.
  - intros path st0 q e st1 HW. apply Watch_allocates in HW as (_ & v & st2 & _ & Hq).
    eexists. split; [exact Hq|done].
Qed.

(** C9: [Stop] returns a nil error and closes [exit]; a second call returns
    a nil error and changes nothing.  The goroutine that [Watch] started for
    the watcher then deletes the registration and ends, so no second
    deletion follows, and a further [Stop] leaves the registry as it is. *)
Theorem Stop_idempotent st p (w : watcher) k id :
  heap st !! p = Some w ->
  removers st !! k = Some (id, p) ->
  mu (cfg st) = false ->
  exists st1 st2,
    Stop p st = Done None st1
    /\ Stop p st1 = Done None st1
    /\ heap st1 !! p = Some (mkW true (w_path w) (w_value w) (w_updates w))
    /\ cfg st1 = cfg st
    /\ remover_step k st1 = Done tt st2
    /\ watchers (cfg st2) = delete id (watchers (cfg st))
    /\ removers st2 = delete k (removers st)
    /\ Stop p st2 = Done None st2
    /\ watchers (cfg st2) !! id = None.
Proof.
  intros Hp Hk Hm.
  assert (Hlt : (p < length (heap st))%nat) by (by eapply lookup_lt_Some).
  set (w1 := mkW true (w_path w) (w_value w) (w_updates w)).
  set (st1 := with_heap (<[p := w1]> (heap st)) st).
  assert (Hp1 : heap st1 !! p = Some w1).
  { simpl. by apply list_lookup_insert_eq. }
  assert (HS : forall s, heap s !! p = Some w1 -> Stop p s = Done None s).
  { intros s Hs. unfold Stop, bind, gets, modify, ret. rewrite Hs. simpl.
    rewrite list_insert_id by done. by destruct s. }
  exists st1.
  exists (with_removers (delete k (removers st))
            (on_cfg (fun c => with_watchers (delete id (watchers c)) c) st1)).
  split.
  { unfold Stop, bind, gets, modify, ret. by rewrite Hp. }
  split; [by apply HS|]. split; [done|]. split; [by destruct st|].
  split.
  { unfold remover_step, bind at 1, gets. simpl. rewrite Hk.
    unfold bind at 1. rewrite Hp1. simpl.
    unfold bind, Lock, Unlock, modify. simpl. rewrite Hm. simpl.
    destruct st as [e0 c0 h0 l0 r0]. simpl in Hm. destruct c0. simpl in Hm.
    by subst. }
  split; [done|]. split; [done|]. split.
  { apply HS. simpl. by apply list_lookup_insert_eq. }
  simpl. apply lookup_delete_eq.
Qed.

(** ** Adding sources *)

Lemma Load_unfold ss st :
  mu (cfg st) = false ->
  Load ss st =
  bind reload (fun _ => ret None)
    (mkState (snd (snapshots ss (world st)))
       (with_sets (sets (cfg st) ++ fst (snapshots ss (world st)))
          (with_sources (sources (cfg st) ++ ss) (cfg st)))
       (heap st)
       (loops st ++ started (length (sets (cfg st))) ss)
       (removers st)).
Proof. intros Hm. unfold Load. unfold bind at 1. by rewrite Load_each_Done. Qed.

(** C8: with the lock free, when the merge of the slot array extended by the
    snapshots of the new sources succeeds and yields a value tree, [Load]
    returns after reading each new source once, with the sources and their
    snapshots appended in order, one ingestion loop started per new source,
    the merged set and value tree replaced and fanned out; and [Get], called
    right after, returns the value at the path in that value tree without
    any further read or delivery. *)
Theorem Load_then_Get ss st merged vs path :
  mu (cfg st) = false ->
  reader.Parse (opt_Reader (opts (cfg st)))
    (sets (cfg st) ++ fst (snapshots ss (world st))) = (merged, None) ->
  fst (reader.Values_of (opt_Reader (opts (cfg st))) merged) = Some vs ->
  exists st',
    Load ss st = Done None st'
    /\ world st' = snd (snapshots ss (world st))
    /\ sources (cfg st') = sources (cfg st) ++ ss
    /\ sets (cfg st') = sets (cfg st) ++ fst (snapshots ss (world st))
    /\ loops st' = loops st ++ started (length (sets (cfg st))) ss
    /\ set (cfg st') = merged
    /\ vals (cfg st') = Some vs
    /\ heap st' = fanout vs (registered (cfg st)) (heap st)
    /\ Get path st' = Done (Values_Get vs path) st'.
Proof.
  intros Hm Hp Hv. rewrite Load_unfold by done.
  unfold bind at 1. rewrite (reload_merged _ merged) by (simpl; done).
  rewrite (update_Done vs) by (simpl; done). unfold ret.
  eexists. split; [done|]. simpl.
  repeat (split; [done|]).
  by apply Get_loaded.
Qed.

(** C10: whatever the sources and whatever their reads give, a [Load] that
    returns returns the nil error; and from a free lock it does return, with
    the nil error, when the merge that follows fails, and also when it
    succeeds and yields a value tree or nobody is registered. *)
Theorem Load_returns_nil ss st :
  mu (cfg st) = false ->
  (forall e st', Load ss st = Done e st' -> e = None)
  /\ (forall err,
        snd (reader.Parse (opt_Reader (opts (cfg st)))
               (sets (cfg st) ++ fst (snapshots ss (world st)))) = Some err ->
        exists st', Load ss st = Done None st' /\ vals (cfg st') = vals (cfg st))
  /\ (forall merged,
        reader.Parse (opt_Reader (opts (cfg st)))
          (sets (cfg st) ++ fst (snapshots ss (world st))) = (merged, None) ->
        fst (reader.Values_of (opt_Reader (opts (cfg st))) merged) <> None
        \/ registered (cfg st) = [] ->
        exists st', Load ss st = Done None st').
Proof.
  intros Hm. split; [|split].
  - intros e st' HL. unfold Load in HL.
    apply bind_inv in HL as (u & st1 & _ & HL).
    apply bind_inv in HL as (u' & st2 & _ & HL).
    unfold ret in HL. by injection HL as <- _.
  - intros err Hp. rewrite Load_unfold by done.
    unfold bind at 1. rewrite (reload_failed _ err) by (simpl; done).
    unfold ret. eexists. split; [done|]. done.
  - intros merged Hp Hor. rewrite Load_unfold by done.
    unfold bind at 1. rewrite (reload_merged _ merged) by (simpl; done).
    destruct (fst (reader.Values_of (opt_Reader (opts (cfg st))) merged))
      as [vs|] eqn:Hv.
    + rewrite (update_Done vs) by (simpl; done). unfold ret. by eexists.
    + destruct Hor as [Hor|Hor]; [done|].
      rewrite update_nil by (simpl; done). simpl.
      change (registered _) with (registered (cfg st)) at 1.
      rewrite decide_True by done. unfold ret. by eexists.
Qed.

End Properties.

(** * The properties at concrete inputs *)

(** The stream of the live aggregator delivers a buffer that cannot be
    decoded: the merged state stays, the slot takes the delivery, the loop
    leaves the stream. *)
Lemma watch_pull_merge_failure_witness :
  exists pc st',
    watch_pull 0 (stream_of (change doc_bad)) false one_live = Done pc st'
    /\ set (cfg st') = set (cfg one_live)
    /\ vals (cfg st') = vals (cfg one_live)
    /\ heap st' = heap one_live
    /\ sets (cfg st') = <[0%nat := Some (change doc_bad)]> (sets (cfg one_live))
    /\ pc = AtAcquire.
Proof.
  apply (watch_pull_merge_failure one_live 0 (stream_of (change doc_bad)) false
           (Some (change doc_bad)) tt "malformed change set").
  - reflexivity.
  - reflexivity.
  - vm_compute. lia.
  - reflexivity.
Defined.

(** C1 fails as stated: after the failed merge the slot array is not the
    one before the delivery (the slot of the source now holds the malformed
    change set in place of [a=1]), and the loop is not waiting for the next
    delivery of the stream but back at acquiring one. *)
Lemma merge_failure_changes_slots :
  match watch_pull 0 (stream_of (change doc_bad)) false one_live with
  | Done pc st' =>
      sets (cfg one_live) = [Some (change doc_a1)]
      /\ sets (cfg st') = [Some (change doc_bad)]
      /\ sets (cfg st') <> sets (cfg one_live)
      /\ pc = AtAcquire
  | _ => False
  end.
Proof.
  vm_compute. repeat split; congruence.
Qed.

(** [Get("a")] on a fresh aggregator whose only source holds a malformed
    document never returns. *)
Lemma Get_blocks_after_failed_bootstrap_witness :
  mu (cfg one_malformed) = false
  /\ vals (cfg one_malformed) = None
  /\ Get ["a"%string] one_malformed = Blocked (on_cfg (with_mu true) one_malformed).
Proof.
  split; [reflexivity|]. split; [reflexivity|].
  apply (Get_blocks_after_failed_bootstrap ["a"%string] one_malformed
           "malformed change set"); reflexivity.
Defined.

(** A stopped watcher with a drained buffer answers [Next] with the stop
    error. *)
Lemma Next_after_Stop_drained_witness :
  Next [([EvStop], false)] (snd (watcher_Stop idle_watcher))
  = (NextStopped "watcher stopped", snd (watcher_Stop idle_watcher))
  /\ forall sched, w_exit (snd (Next sched (snd (watcher_Stop idle_watcher)))) = true.
Proof.
  apply (Next_after_Stop_drained (snd (watcher_Stop idle_watcher)) [EvStop] false []).
  - reflexivity.
  - reflexivity.
  - repeat constructor.
Defined.

(** C3 fails as stated: the watcher has been stopped, the value [2] is still
    in its buffer, both cases of the [select] can proceed, and with the pick
    of the receive [Next] returns [2] with a nil error. *)
Lemma Next_after_Stop_returns_value :
  w_exit (snd (watcher_Stop pending_watcher)) = true
  /\ fst (Next [([], false)] (snd (watcher_Stop pending_watcher))) = NextValue val_2
  /\ fst (Next [([], false)] (snd (watcher_Stop pending_watcher)))
     <> NextStopped "watcher stopped".
Proof.
  vm_compute. split; [reflexivity|]. split; [reflexivity|discriminate].
Qed.

(** [Load] of a second source on an aggregator with one source and one
    slot: afterwards there are two sources and three slots. *)
Lemma Load_grows_slots_by_two_witness :
  length (sets (cfg one_started)) = length (sources (cfg one_started))
  /\ exists st'',
       watch_step 1 (after (Load [source_of (change doc_d5)]) one_started) = Done tt st''
       /\ sources (cfg st'') = sources (cfg one_started) ++ [source_of (change doc_d5)]
       /\ length (sets (cfg st'')) = 3%nat.
Proof.
  split; [reflexivity|].
  apply (Load_grows_slots_by_two one_started (source_of (change doc_d5)) None
           (after (Load [source_of (change doc_d5)]) one_started));
    vm_compute; reflexivity.
Defined.

(** Five steps of the loop of an unreachable source after [Close]: still at
    the top of the outer loop. *)
Lemma watch_never_exits_witness :
  exit (cfg down_closed) = true
  /\ exists st',
       watch_steps 5 0 down_closed = Done tt st'
       /\ loops st' !! 0%nat = Some (mkLoop 0 source_down AtAcquire)
       /\ exit (cfg st') = true.
Proof.
  split; [reflexivity|].
  apply (watch_never_exits_while_acquisition_fails 5 down_closed 0 0 source_down).
  - reflexivity.
  - reflexivity.
  - intros []. simpl. congruence.
Defined.

(** A watcher with baseline [1] receives [1] and then [2]: the first is
    dropped inside the call, the second is returned. *)
Lemma Next_never_repeats_witness :
  Value_Bytes val_2 <> Value_Bytes (w_value idle_watcher)
  /\ Next [([EvDeliver val_1], false); ([EvDeliver val_2], false)] idle_watcher
     = (NextValue val_2, mkW false ["a"%string] val_2 (mkChan 1 [])).
Proof.
  split; [|reflexivity].
  apply (Next_never_repeats
           [([EvDeliver val_1], false); ([EvDeliver val_2], false)]
           idle_watcher val_2
           (mkW false ["a"%string] val_2 (mkChan 1 []))).
  reflexivity.
Defined.

(** A second fan-out onto the undrained watcher leaves its buffer as it
    is. *)
Lemma update_drops_on_full_witness :
  heap one_pending !! 0%nat = Some undrained_watcher
  /\ exists st',
       update one_pending = Done tt st'
       /\ heap st' !! 0%nat = Some undrained_watcher.
Proof.
  split; [reflexivity|].
  destruct (update_drops_on_full one_pending [(Byte.x61, Byte.x31)] 0 0%nat
              undrained_watcher)
    as (st' & Hu & _ & _ & Hfull & _).
  - reflexivity.
  - reflexivity.
  - vm_compute. reflexivity.
  - reflexivity.
  - reflexivity.
  - exists st'. split; [exact Hu|]. apply Hfull. simpl. congruence.
Defined.

(** [Stop] twice on the watcher made by [Watch("a")], then its goroutine:
    the registration is deleted and the goroutine is gone. *)
Lemma Stop_idempotent_witness :
  exists st1 st2,
    Stop 0 one_watched = Done None st1
    /\ Stop 0 st1 = Done None st1
    /\ remover_step 0 st1 = Done tt st2
    /\ watchers (cfg st2) = delete 0 (watchers (cfg one_watched))
    /\ removers st2 = []
    /\ Stop 0 st2 = Done None st2.
Proof.
  destruct (Stop_idempotent one_watched 0 idle_watcher 0 0)
    as (st1 & st2 & H1 & H2 & _ & _ & H3 & H4 & H5 & H6 & _).
  - reflexivity.
  - reflexivity.
  - reflexivity.
  - exists st1, st2. repeat (split; [assumption|]). exact H6.
Defined.

(** The dynamic load of the specification: after [Load] of a source holding
    [d=5], [Get("d")] returns [5]. *)
Lemma Load_then_Get_witness :
  exists st',
    Load [source_of (change doc_d5)] one_live = Done None st'
    /\ sets (cfg st') = [Some (change doc_a1); Some (change doc_d5)]
    /\ Get ["d"%string] st' = Done val_5 st'.
Proof.
  destruct (Load_then_Get [source_of (change doc_d5)] one_live
              (Some (source.mkChangeSet (Some (doc_a1 ++ doc_d5)) "" "flat" 0))
              [(Byte.x61, Byte.x31); (Byte.x64, Byte.x35)] ["d"%string])
    as (st' & HL & _ & _ & Hs & _ & _ & _ & _ & HG).
  - reflexivity.
  - reflexivity.
  - reflexivity.
  - exists st'. split; [exact HL|]. split; [exact Hs|exact HG].
Defined.

(** [Load] of an unreachable source and of a malformed one: the merge fails
    and [Load] returns the nil error. *)
Lemma Load_returns_nil_witness :
  mu (cfg one_live) = false
  /\ exists st',
       Load [source_down; source_of (change doc_bad)] one_live = Done None st'
       /\ vals (cfg st') = vals (cfg one_live).
Proof.
  split; [reflexivity|].
  apply (proj1 (proj2 (Load_returns_nil [source_down; source_of (change doc_bad)]
                         one_live eq_refl))
           "malformed change set").
  reflexivity.
Defined.

(** * Further properties of the package *)

Section Invariants.
Context `{Collaborators}.

(** ** Keeping a property along a computation *)

Lemma after_bind {A B} (m : M A) (k : A -> M B) st :
  after (bind m k) st =
  match m st with
  | Done a st' => after (k a) st'
  | Blocked st' => st'
  | Panicked st' => st'
  end.
Proof. unfold after, bind. by destruct (m st). Qed.

Lemma keeps_bind P {A B} (m : M A) (k : A -> M B) :
  keeps P m -> (forall a, keeps P (k a)) -> keeps P (bind m k).
Proof.
  intros Hm Hk st HP. rewrite after_bind. specialize (Hm st HP).
  unfold after in Hm. destruct (m st); [by apply Hk|done|done].
Qed.

Lemma frame_bind {A B} (m : M A) (k : A -> M B) :
  frame_only m -> (forall a, frame_only (k a)) -> frame_only (bind m k).
Proof.
  intros Hm Hk st. rewrite after_bind. specialize (Hm st).
  unfold after in Hm. destruct (m st) as [a st'| |]; [|done|done].
  destruct (Hk a st') as (-> & -> & ->). done.
Qed.

Lemma frame_ret {A} (a : A) : frame_only (ret a).
Proof. done. Qed.

Lemma frame_gets {A} (f : state -> A) : frame_only (gets f).
Proof. done. Qed.

Lemma frame_block {A} : frame_only (@block _ A).
Proof. done. Qed.

Lemma frame_panic {A} : frame_only (@panic _ A).
Proof. done. Qed.

Lemma frame_call {A} (f : Env -> A * Env) : frame_only (call f).
Proof. intros st. unfold after, call. by destruct (f (world st)). Qed.

Lemma frame_Lock : frame_only Lock.
Proof. intros st. unfold after, Lock. by destruct (mu (cfg st)). Qed.

Lemma frame_Unlock : frame_only Unlock.
Proof. intros st. unfold after, Unlock. by destruct (mu (cfg st)). Qed.

Lemma frame_RLock : frame_only RLock.
Proof. intros st. unfold after, RLock. by destruct (mu (cfg st)). Qed.

Lemma frame_modify (f : state -> state) :
  (forall st, watchers (cfg (f st)) = watchers (cfg st)
              /\ heap (f st) = heap st /\ removers (f st) = removers st) ->
  frame_only (modify f).
Proof. intros Hf st. apply Hf. Qed.

Ltac frame_tac :=
  repeat first
    [ apply frame_bind; [|intros ?]
    | apply frame_ret
    | apply frame_gets
    | apply frame_block
    | apply frame_panic
    | apply frame_call
    | apply frame_Lock
    | apply frame_Unlock
    | apply frame_RLock
    | apply frame_modify; intros [? [] ? ? ?]; done
    | match goal with
      | |- frame_only (match ?x with _ => _ end) => destruct x
      end ].

Lemma frame_loaded : frame_only loaded.
Proof. unfold loaded, RUnlock. frame_tac. Qed.

Lemma frame_read_all srcs acc : frame_only (read_all srcs acc).
Proof.
  revert acc; induction srcs as [|s srcs IH]; intros acc; cbn [read_all];
    frame_tac; apply IH.
Qed.

Lemma frame_Close : frame_only Close.
Proof. unfold Close. frame_tac. Qed.

Lemma frame_leave_stream w stopped : frame_only (leave_stream w stopped).
Proof. unfold leave_stream. frame_tac. Qed.

Lemma frame_Get_locked path : frame_only (Get_locked path).
Proof. unfold Get_locked. frame_tac. Qed.

Lemma frame_stopper_step k : frame_only (stopper_step k).
Proof. unfold stopper_step. frame_tac. Qed.

Lemma frame_Load_each ss : frame_only (Load_each ss).
Proof. induction ss as [|s ss IH]; cbn [Load_each]; frame_tac. apply IH. Qed.

(** ** The registry, the watchers and their buffers *)

Lemma wf_ext st st' :
  watchers (cfg st') = watchers (cfg st) -> heap st' = heap st ->
  removers st' = removers st -> wf st -> wf st'.
Proof.
  intros Hw Hh Hr (H1 & H2 & H3 & H4).
  unfold wf, registry_ok, registry_inj, buffers_ok, removers_ok.
  rewrite Hw, Hh, Hr. done.
Qed.

Lemma keeps_of_frame {A} (m : M A) : frame_only m -> keeps wf m.
Proof. intros Hm st Hwf. destruct (Hm st) as (? & ? & ?). by eapply wf_ext. Qed.

(** Replacing a watcher by one with a sound buffer. *)
Lemma wf_store st p (w' : watcher) :
  wf st -> (p < length (heap st))%nat ->
  cap (w_updates w') = 1%nat -> (length (buf (w_updates w')) <= 1)%nat ->
  wf (with_heap (<[p := w']> (heap st)) st).
Proof.
  intros (H1 & H2 & H3 & H4) Hp Hc Hb.
  destruct st as [e c h l r]. unfold wf, registry_ok, registry_inj, buffers_ok,
    removers_ok in *. simpl in *.
  split; [|split; [|split]].
  - intros id q Hq. rewrite length_insert. by eapply H1.
  - exact H2.
  - intros q w Hq. destruct (decide (q = p)) as [->|Hne].
    + rewrite list_lookup_insert_eq in Hq by done. by injection Hq as <-.
    + rewrite list_lookup_insert_ne in Hq by done. by eapply H3.
  - intros k id q Hq. rewrite length_insert. by eapply H4.
Qed.

Lemma try_send_bounded {A} (ch : chan A) v :
  cap ch = 1%nat -> (length (buf ch) <= 1)%nat ->
  (length (buf (try_send ch v)) <= 1)%nat.
Proof.
  intros Hc Hb. unfold try_send. rewrite Hc.
  destruct (buf ch) as [|x l] eqn:E; simpl; [lia|].
  destruct l; simpl in *; [by rewrite E|lia].
Qed.

Lemma apply_event_buffer (w : watcher) e :
  cap (w_updates w) = 1%nat -> (length (buf (w_updates w)) <= 1)%nat ->
  cap (w_updates (apply_event w e)) = 1%nat
  /\ (length (buf (w_updates (apply_event w e))) <= 1)%nat.
Proof.
  intros Hc Hb. destruct e as [v|]; simpl; [|done].
  rewrite try_send_cap. split; [done|]. by apply try_send_bounded.
Qed.

Lemma apply_events_buffer evs (w : watcher) :
  cap (w_updates w) = 1%nat -> (length (buf (w_updates w)) <= 1)%nat ->
  cap (w_updates (fold_left apply_event evs w)) = 1%nat
  /\ (length (buf (w_updates (fold_left apply_event evs w))) <= 1)%nat.
Proof.
  revert w; induction evs as [|e evs IH]; intros w Hc Hb; simpl; [done|].
  destruct (apply_event_buffer w e Hc Hb). by apply IH.
Qed.

(** [Next] leaves the buffer of the watcher sound, whatever is delivered
    meanwhile. *)
Lemma Next_buffer sched (w : watcher) :
  cap (w_updates w) = 1%nat -> (length (buf (w_updates w)) <= 1)%nat ->
  cap (w_updates (snd (Next sched w))) = 1%nat
  /\ (length (buf (w_updates (snd (Next sched w)))) <= 1)%nat.
Proof.
  revert w; induction sched as [|[evs pick] rest IH]; intros w Hc Hb; [done|].
  cbn [Next]. destruct (apply_events_buffer evs w Hc Hb) as [Hc1 Hb1].
  destruct (select_case pick _) as [| |u ch] eqn:Hsel.
  - by apply IH.
  - done.
  - apply select_case_update in Hsel. unfold try_recv in Hsel.
    destruct (buf (w_updates (fold_left apply_event evs w))) as [|x l] eqn:E;
      [done|]. injection Hsel as <- <-. simpl in Hb1.
    destruct (bytes_Equal _ _); simpl.
    + apply IH; simpl; [done|lia].
    + split; [done|lia].
Qed.

Ltac frame_all :=
  repeat first
    [ apply frame_loaded
    | apply frame_read_all
    | apply frame_Close
    | apply frame_leave_stream
    | apply frame_Get_locked
    | apply frame_stopper_step
    | apply frame_Load_each
    | progress frame_tac ].

Lemma keeps_for_each P {A} (l : list A) (f : A -> M unit) :
  (forall x, keeps P (f x)) -> keeps P (for_each l f).
Proof.
  intros Hf. induction l as [|x l IH]; cbn [for_each]; [by intros st HP|].
  apply keeps_bind; [apply Hf|intros _; apply IH].
Qed.

Lemma keeps_update_one p : keeps wf (update_one p).
Proof.
  intros st Hwf. unfold after, update_one, bind, gets.
  destruct (vals (cfg st)) as [vs|]; [|done].
  destruct (heap st !! p) as [w|] eqn:Hp; [|done].
  unfold modify. destruct Hwf as (H1 & H2 & H3 & H4).
  destruct (H3 p w Hp) as [Hc Hb].
  apply wf_store; [done|by eapply lookup_lt_Some| |]; simpl.
  - by rewrite try_send_cap.
  - by apply try_send_bounded.
Qed.

Lemma keeps_update : keeps wf update.
Proof.
  unfold update, RUnlock.
  apply keeps_bind; [apply keeps_of_frame, frame_RLock|intros _].
  apply keeps_bind; [apply keeps_of_frame, frame_gets|intros ws].
  apply keeps_bind; [apply keeps_of_frame, frame_ret|intros _].
  apply keeps_for_each, keeps_update_one.
Qed.

Ltac keeps_tac :=
  repeat first
    [ solve [apply keeps_of_frame; frame_all]
    | apply keeps_update
    | apply keeps_bind; [|intros ?]
    | match goal with
      | |- keeps wf (match ?x with _ => _ end) => destruct x
      end ].

Lemma keeps_sync : keeps wf sync.
Proof. unfold sync. keeps_tac. Qed.

Lemma keeps_reload : keeps wf reload.
Proof. unfold reload. keeps_tac. Qed.

Lemma keeps_Get path : keeps wf (Get path).
Proof. unfold Get. keeps_tac. Qed.

Lemma keeps_Bytes : keeps wf Bytes.
Proof. unfold Bytes. keeps_tac. Qed.

Lemma keeps_Load ss : keeps wf (Load ss).
Proof. unfold Load. keeps_tac. Qed.

Lemma keeps_watch_step k : keeps wf (watch_step k).
Proof. unfold watch_step, watch_from, watch_pull. keeps_tac. Qed.

Lemma keeps_Stop p : keeps wf (Stop p).
Proof.
  intros st Hwf. unfold after, Stop, bind, gets.
  destruct (heap st !! p) as [w|] eqn:Hp; [|done].
  unfold modify, ret. destruct Hwf as (H1 & H2 & H3 & H4).
  destruct (H3 p w Hp) as [Hc Hb].
  apply wf_store; [done|by eapply lookup_lt_Some|done|done].
Qed.

Lemma keeps_Next_at p pick : keeps wf (Next_at p pick).
Proof.
  intros st Hwf. unfold after, Next_at, bind, gets.
  destruct (heap st !! p) as [w|] eqn:Hp; [|done].
  unfold modify, ret. destruct Hwf as (H1 & H2 & H3 & H4).
  destruct (H3 p w Hp) as [Hc Hb].
  destruct (Next_buffer [([], pick)] w Hc Hb).
  apply wf_store; [done|by eapply lookup_lt_Some|done|done].
Qed.

Lemma keeps_remover_step k : keeps wf (remover_step k).
Proof.
  intros st Hwf. unfold after, remover_step, bind, gets.
  destruct (removers st !! k) as [[id p]|] eqn:Hk; [|done].
  destruct (heap st !! p) as [w|] eqn:Hp; [|done].
  destruct (w_exit w); [|done].
  unfold Lock. destruct (mu (cfg st)) eqn:Hm; [done|].
  unfold modify, Unlock. simpl.
  destruct Hwf as (H1 & H2 & H3 & H4).
  destruct st as [e c h l r].
  unfold wf, registry_ok, registry_inj, buffers_ok, removers_ok in *. simpl in *.
  split; [|split; [|split]].
  - intros id' q Hq. apply lookup_delete_Some in Hq as [_ Hq]. by eapply H1.
  - intros id1 id2 q Hq1 Hq2. apply lookup_delete_Some in Hq1 as [_ Hq1].
    apply lookup_delete_Some in Hq2 as [_ Hq2]. by eapply H2.
  - exact H3.
  - intros k' id' q Hq. destruct (decide (k' < k)%nat).
    + rewrite list_lookup_delete_lt in Hq by done. by eapply H4.
    + rewrite list_lookup_delete_ge in Hq by lia. by eapply H4.
Qed.

(** The part of [Watch] after the baseline has been read. *)
Lemma keeps_Watch path : keeps wf (Watch path).
Proof.
  unfold Watch. apply keeps_bind; [apply keeps_Get|intros value].
  intros st Hwf. unfold after, bind, Lock.
  destruct (mu (cfg st)) eqn:Hm; [done|].
  unfold gets, modify, Unlock, ret. simpl.
  destruct Hwf as (H1 & H2 & H3 & H4).
  destruct st as [e c h l r].
  unfold wf, registry_ok, registry_inj, buffers_ok, removers_ok in *. simpl in *.
  split; [|split; [|split]].
  - intros id q Hq. rewrite length_app. simpl.
    apply lookup_insert_Some in Hq as [[_ <-]|[_ Hq]]; [lia|].
    specialize (H1 _ _ Hq). lia.
  - intros id1 id2 q Hq1 Hq2.
    apply lookup_insert_Some in Hq1 as [[<- <-]|[Hn1 Hq1]];
      apply lookup_insert_Some in Hq2 as [[<- Hq2]|[Hn2 Hq2]]; try done.
    + specialize (H1 _ _ Hq2). lia.
    + subst q. specialize (H1 _ _ Hq1). lia.
    + by eapply H2.
  - intros q w Hq. apply lookup_app_Some in Hq as [Hq|[_ Hq]].
    + by eapply H3.
    + destruct (q - length h)%nat; simpl in Hq; [|done].
      injection Hq as <-. simpl. split; [done|lia].
  - intros k id q Hq. rewrite length_app. simpl.
    apply lookup_app_Some in Hq as [Hq|[_ Hq]].
    + specialize (H4 _ _ _ Hq). lia.
    + destruct (k - length r)%nat; simpl in Hq; [|done].
      injection Hq as <- <-. lia.
Qed.

Lemma keeps_run_op o : keeps wf (run_op o).
Proof.
  destruct o; simpl.
  - apply keeps_bind; [apply keeps_Get|intros ?; apply keeps_of_frame, frame_ret].
  - apply keeps_bind; [apply keeps_Bytes|intros ?; apply keeps_of_frame, frame_ret].
  - apply keeps_bind; [apply keeps_Load|intros ?; apply keeps_of_frame, frame_ret].
  - apply keeps_bind; [apply keeps_Watch|intros ?; apply keeps_of_frame, frame_ret].
  - apply keeps_of_frame. frame_all.
  - apply keeps_bind; [apply keeps_Stop|intros ?; apply keeps_of_frame, frame_ret].
  - apply keeps_bind; [apply keeps_Next_at|intros ?; apply keeps_of_frame, frame_ret].
  - apply keeps_watch_step.
  - apply keeps_of_frame, frame_stopper_step.
  - apply keeps_remover_step.
Qed.

Lemma wf_newConfig os e : wf (newConfig os e).
Proof.
  unfold newConfig, wf, registry_ok, registry_inj, buffers_ok, removers_ok.
  simpl. repeat split; intros *; try (rewrite lookup_empty); done.
Qed.

(** X1: in every state an aggregator can reach, whatever was called and
    however the calls ended, each registration points to an allocated
    watcher, no two registrations share a watcher, every inbound buffer has
    capacity one and holds at most one value, and each goroutine started by
    [Watch] waits on an allocated watcher. *)
Theorem reachable_wf st : reachable st -> wf st.
Proof.
  induction 1 as [os e|st o _ IH].
  - apply wf_newConfig.
  - by apply keeps_run_op.
Qed.


(** ** What the fan-out leaves alone *)

Lemma keeps_of_heap_frame (P : state -> Prop) {A} (m : M A) :
  (forall st st', heap st' = heap st -> P st -> P st') ->
  frame_only m -> keeps P m.
Proof. intros HP Hm st Hst. destruct (Hm st) as (_ & Hh & _). by eapply HP. Qed.

(** X2: however [update] ends, it changes nothing of the aggregator but the
    inbound buffers: every watcher is still there, stopped or not as before,
    with its path and its last returned value. *)
Theorem update_keeps_watchers st p (w : watcher) :
  heap st !! p = Some w ->
  cfg (after update st) = cfg st
  /\ exists w',
       heap (after update st) !! p = Some w'
       /\ w_exit w' = w_exit w /\ w_path w' = w_path w /\ w_value w' = w_value w.
Proof.
  intros Hp.
  set (P := fun s : state =>
              cfg s = cfg st
              /\ exists w', heap s !! p = Some w'
                      /\ w_exit w' = w_exit w /\ w_path w' = w_path w
                      /\ w_value w' = w_value w).
  assert (HP : P st) by (split; [done|by exists w]).
  assert (Hone : forall q, keeps P (update_one q)).
  { intros q s (Hc & w' & Hw' & He & Hpa & Hv).
    unfold after, update_one, bind, gets.
    destruct (vals (cfg s)) as [vs|]; [|by split; [|exists w']].
    destruct (heap s !! q) as [u|] eqn:Hq; [|by split; [|exists w']].
    unfold modify. split; [by destruct s|]. simpl.
    destruct (decide (q = p)) as [->|Hne].
    - rewrite Hw' in Hq. injection Hq as <-.
      eexists. split; [apply list_lookup_insert_eq; by eapply lookup_lt_Some|done].
    - exists w'. by rewrite list_lookup_insert_ne. }
  assert (Hk : keeps P update).
  { unfold update, bind, RLock, RUnlock, gets, ret.
    intros s Hs. unfold after. destruct (mu (cfg s)); [done|].
    apply (keeps_for_each P _ update_one Hone s Hs). }
  exact (Hk st HP).
Qed.

(** The registered addresses after a registration is deleted. *)
Lemma registered_delete st id p :
  registry_inj st -> watchers (cfg st) !! id = Some p ->
  p ∉ (map_to_list (delete id (watchers (cfg st)))).*2.
Proof.
  intros Hinj Hid Hin. apply list_elem_of_fmap in Hin as ([id' q] & -> & Hin).
  apply elem_of_map_to_list in Hin. simpl in *.
  apply lookup_delete_Some in Hin as [Hne Hq].
  by specialize (Hinj _ _ _ Hid Hq).
Qed.

(** X3: once a watcher has been stopped and its goroutine has deleted the
    registration, a fan-out sends it nothing: after [Stop], the deletion and
    an [update], the watcher is stopped and its buffer is as it was. *)
Theorem stopped_watcher_gets_no_delivery st k id p (w : watcher) vs :
  wf st ->
  mu (cfg st) = false ->
  vals (cfg st) = Some vs ->
  watchers (cfg st) !! id = Some p ->
  removers st !! k = Some (id, p) ->
  heap st !! p = Some w ->
  exists st1 st2 st3,
    Stop p st = Done None st1
    /\ remover_step k st1 = Done tt st2
    /\ update st2 = Done tt st3
    /\ watchers (cfg st3) !! id = None
    /\ heap st3 !! p = Some (mkW true (w_path w) (w_value w) (w_updates w)).
Proof.
  intros (_ & Hinj & _ & _) Hm Hv Hid Hk Hp.
  assert (Hlt : (p < length (heap st))%nat) by (by eapply lookup_lt_Some).
  pose proof (registered_delete st id p Hinj Hid) as Hout.
  destruct st as [e c h l r]. destruct c as [ex o m s v ss srcs i ws].
  simpl in *. subst m v.
  eexists. eexists. eexists.
  split.
  { unfold Stop, bind, gets, modify, ret. simpl. rewrite Hp. simpl. reflexivity. }
  split.
  { unfold remover_step, bind at 1, gets. simpl. rewrite Hk.
    unfold bind at 1. cbn [heap with_heap].
    rewrite list_lookup_insert_eq by done. simpl.
    unfold bind, Lock, Unlock, modify. simpl. reflexivity. }
  split.
  { by apply (update_Done vs). }
  simpl. split; [apply lookup_delete_eq|].
  unfold registered. simpl. rewrite fanout_other by done.
  by apply list_lookup_insert_eq.
Qed.

End Invariants.

Section Behaviour.
Context `{Collaborators}.

Ltac expose st :=
  destruct st as [?e [?ex ?o ?m ?s ?v ?ss ?srcs ?i ?ws] ?h ?l ?r]; simpl in *; subst.

(** ** Consumers: what [Next] returns and when *)

Lemma apply_events_buf evs (w : watcher) u :
  u ∈ buf (w_updates (fold_left apply_event evs w)) ->
  u ∈ buf (w_updates w) \/ EvDeliver u ∈ evs.
Proof.
  revert w; induction evs as [|e evs IH]; intros w Hu; simpl in Hu; [by left|].
  apply IH in Hu as [Hu|Hu]; [|right; by right].
  destruct e as [v|]; simpl in Hu; [|by left].
  unfold try_send in Hu. destruct (_ <? _)%nat; simpl in Hu; [|by left].
  apply elem_of_app in Hu as [Hu|Hu]; [by left|].
  apply list_elem_of_singleton in Hu as ->. right. by left.
Qed.

(** X4: a value returned by [Next] was in the inbound buffer when the call
    began or was sent to the watcher during the call; [Next] makes up no
    value. *)
Theorem Next_returns_delivered sched (w : watcher) v w' :
  Next sched w = (NextValue v, w') ->
  v ∈ buf (w_updates w)
  \/ exists evs pick, (evs, pick) ∈ sched /\ EvDeliver v ∈ evs.
Proof.
  revert w; induction sched as [|[evs pick] rest IH]; intros w; [done|].
  cbn [Next].
  assert (Hstep : forall u, u ∈ buf (w_updates (fold_left apply_event evs w)) ->
            u ∈ buf (w_updates w)
            \/ exists evs' pick', (evs', pick') ∈ (evs, pick) :: rest /\ EvDeliver u ∈ evs').
  { intros u Hu. apply apply_events_buf in Hu as [Hu|Hu]; [by left|].
    right. exists evs, pick. split; [by left|done]. }
  assert (Hlater : (v ∈ buf (w_updates (fold_left apply_event evs w))
            \/ exists evs' pick', (evs', pick') ∈ rest /\ EvDeliver v ∈ evs') ->
            v ∈ buf (w_updates w)
            \/ exists evs' pick', (evs', pick') ∈ (evs, pick) :: rest /\ EvDeliver v ∈ evs').
  { intros [Hv|(evs' & pick' & Hin & Hd)]; [by apply Hstep|].
    right. exists evs', pick'. split; [by right|done]. }
  destruct (select_case pick _) as [| |u ch] eqn:Hsel.
  - intros Hn. apply IH in Hn. by apply Hlater.
  - done.
  - apply select_case_update in Hsel. unfold try_recv in Hsel.
    destruct (buf (w_updates (fold_left apply_event evs w))) as [|x b] eqn:E;
      [done|]. injection Hsel as <- <-.
    destruct (bytes_Equal _ _).
    + intros Hn. apply IH in Hn. simpl in Hn. apply Hlater.
      destruct Hn as [Hn|Hn]; [left; by right|by right].
    + intros [= <- _]. apply Hstep. by left.
Qed.

Lemma apply_events_stop evs (w : watcher) :
  w_exit (fold_left apply_event evs w) = true ->
  w_exit w = true \/ EvStop ∈ evs.
Proof.
  revert w; induction evs as [|e evs IH]; intros w Hw; simpl in Hw; [by left|].
  apply IH in Hw as [Hw|Hw]; [|right; by right].
  destruct e; simpl in Hw; [by left|right; by left].
Qed.

(** X5: the only error [Next] returns is the stop error, and it returns it
    only for a watcher that was stopped before or during the call. *)
Theorem Next_error_only_after_Stop sched (w : watcher) e :
  fst (Next sched w) = NextStopped e ->
  e = "watcher stopped"%string
  /\ (w_exit w = true \/ exists evs pick, (evs, pick) ∈ sched /\ EvStop ∈ evs).
Proof.
  revert w; induction sched as [|[evs pick] rest IH]; intros w; [done|].
  cbn [Next].
  assert (Hlater : forall w1 : watcher,
            w_exit w1 = w_exit (fold_left apply_event evs w) ->
            (w_exit w1 = true \/ exists evs' pick', (evs', pick') ∈ rest /\ EvStop ∈ evs') ->
            w_exit w = true
            \/ exists evs' pick', (evs', pick') ∈ (evs, pick) :: rest /\ EvStop ∈ evs').
  { intros w1 Hw1 [Hx|(evs' & pick' & Hin & Hs)].
    - rewrite Hw1 in Hx. apply apply_events_stop in Hx as [Hx|Hx]; [by left|].
      right. exists evs, pick. split; [by left|done].
    - right. exists evs', pick'. split; [by right|done]. }
  destruct (select_case pick _) as [| |u ch] eqn:Hsel.
  - intros Hn. apply IH in Hn as [-> Hn]. split; [done|]. by eapply Hlater.
  - simpl. intros [= <-]. split; [done|]. apply (Hlater _ eq_refl). left.
    unfold select_case in Hsel.
    destruct (w_exit (fold_left apply_event evs w)); [done|].
    by destruct (try_recv _) as [[]|].
  - destruct (bytes_Equal _ _); [|done].
    intros Hn. apply IH in Hn as [-> Hn]. split; [done|].
    by apply (Hlater _ eq_refl).
Qed.

(** X6: as long as the watcher is not stopped and every value in its buffer
    or sent to it has the bytes of the value it holds, [Next] returns
    nothing: the call consumes the duplicates and stays in the [select]. *)
Theorem Next_waits_on_duplicates sched (w : watcher) :
  w_exit w = false ->
  (forall u, u ∈ buf (w_updates w) -> Value_Bytes u = Value_Bytes (w_value w)) ->
  (forall evs pick e, (evs, pick) ∈ sched -> e ∈ evs ->
     exists u, e = EvDeliver u /\ Value_Bytes u = Value_Bytes (w_value w)) ->
  fst (Next sched w) = NextWaiting
  /\ w_value (snd (Next sched w)) = w_value w
  /\ w_exit (snd (Next sched w)) = false.
Proof.
  revert w; induction sched as [|[evs pick] rest IH]; intros w Hex Hbuf Hev; [done|].
  cbn [Next].
  destruct (apply_events_value evs w) as [Hval _].
  assert (Hex1 : w_exit (fold_left apply_event evs w) = false).
  { destruct (w_exit (fold_left apply_event evs w)) eqn:E; [|done].
    apply apply_events_stop in E as [E|E]; [congruence|].
    destruct (Hev evs pick EvStop) as (u & Hu & _); [by left|done|done]. }
  assert (Hbuf1 : forall u, u ∈ buf (w_updates (fold_left apply_event evs w)) ->
            Value_Bytes u = Value_Bytes (w_value w)).
  { intros u Hu. apply apply_events_buf in Hu as [Hu|Hu]; [by apply Hbuf|].
    destruct (Hev evs pick (EvDeliver u)) as (u' & [= <-] & Hb); [by left|done|done]. }
  assert (Hrest : forall evs' pick' e, (evs', pick') ∈ rest -> e ∈ evs' ->
            exists u, e = EvDeliver u /\ Value_Bytes u = Value_Bytes (w_value w)).
  { intros evs' pick' e Hin He. eapply Hev; [by right|done]. }
  destruct (select_case pick _) as [| |u ch] eqn:Hsel.
  - destruct (IH (fold_left apply_event evs w)) as (H1 & H2 & H3);
      [done|by rewrite Hval|by rewrite Hval|]. by rewrite H1, H2, H3.
  - unfold select_case in Hsel. rewrite Hex1 in Hsel.
    by destruct (try_recv _) as [[]|].
  - apply select_case_update in Hsel. unfold try_recv in Hsel.
    destruct (buf (w_updates (fold_left apply_event evs w))) as [|x b] eqn:E;
      [done|]. injection Hsel as <- <-.
    assert (Hx : Value_Bytes x = Value_Bytes (w_value w)) by (apply Hbuf1; by left).
    simpl. rewrite Hval, Hx, (proj2 (bytes_Equal_eq _ _) eq_refl).
    destruct (IH (mkW (w_exit (fold_left apply_event evs w))
                      (w_path (fold_left apply_event evs w)) (w_value w)
                      (mkChan (cap (w_updates (fold_left apply_event evs w))) b)))
      as (H1 & H2 & H3); simpl; [done| |done|].
    + intros u Hu. apply Hbuf1. by right.
    + simpl in H2. done.
Qed.

(** X7: a changed value reaches the consumer.  With the lock free and the
    value tree loaded, for a registered watcher that is not stopped and
    whose buffer is empty: when the value at its path differs in bytes from
    the value it holds, the fan-out puts it in the buffer and the next pass
    of [Next] returns it, leaving the buffer empty and the watcher holding
    the new value. *)
Theorem fanout_reaches_consumer st vs id p (w : watcher) pick :
  mu (cfg st) = false ->
  vals (cfg st) = Some vs ->
  watchers (cfg st) !! id = Some p ->
  heap st !! p = Some w ->
  w_exit w = false ->
  w_updates w = make_chan 1 ->
  Value_Bytes (Values_Get vs (w_path w)) <> Value_Bytes (w_value w) ->
  exists st1 st2,
    update st = Done tt st1
    /\ Next_at p pick st1 = Done (NextValue (Values_Get vs (w_path w))) st2
    /\ heap st2 !! p =
       Some (mkW false (w_path w) (Values_Get vs (w_path w)) (make_chan 1)).
Proof.
  intros Hm Hv Hid Hp Hex Hch Hne.
  assert (Hin : p ∈ registered (cfg st)).
  { unfold registered. apply list_elem_of_fmap. exists (id, p). split; [done|].
    by apply elem_of_map_to_list. }
  assert (Hc : cap (w_updates w) = 1%nat) by (by rewrite Hch).
  pose proof (fanout_lookup vs _ _ _ _ Hc Hp Hin) as Hf.
  assert (Hlt : (p < length (fanout vs (registered (cfg st)) (heap st)))%nat)
    by (by eapply lookup_lt_Some).
  eexists. eexists. split; [by apply (update_Done vs)|].
  unfold Next_at, bind, gets, modify, ret. cbn [heap with_heap]. rewrite Hf.
  unfold deliver. rewrite Hch. cbn [Next fold_left].
  unfold select_case. simpl. rewrite Hex. simpl.
  apply bytes_Equal_neq in Hne.
  rewrite (proj2 (bytes_Equal_neq _ _)); [|by intros E; apply bytes_Equal_neq in Hne].
  simpl. split; [done|]. by apply list_lookup_insert_eq.
Qed.


(** ** The cold start *)

(** [sync] when the merge of what was read succeeds. *)
Lemma sync_merged st merged :
  mu (cfg st) = false ->
  reader.Parse (opt_Reader (opts (cfg st)))
    (fst (read_sources (sources (cfg st)) [] (world st))) = (merged, None) ->
  sync st =
  update (with_world (snd (read_sources (sources (cfg st)) [] (world st)))
            (on_cfg (fun c => with_set merged
                       (with_vals (fst (reader.Values_of (opt_Reader (opts c)) merged)) c))
               st)).
Proof.
  intros Hm Hp. unfold sync, bind at 1, Lock. rewrite Hm.
  unfold bind at 1, gets. unfold bind at 1. rewrite read_all_Done.
  unfold bind at 1, gets. expose st. rewrite Hp.
  unfold bind, modify, Unlock. simpl. done.
Qed.

(** X8: the first [Get] on an aggregator with nothing loaded reads every
    source once, in order, leaving out those whose read fails; when the
    merge of what was read succeeds and yields a value tree, [Get] returns
    the value at the path in that tree and leaves the tree and the merged
    set in place, fanned out, with the lock free.  The slot array is not
    touched: what the cold start read is not stored in the slots. *)
Theorem Get_cold_start path st merged vs :
  mu (cfg st) = false ->
  vals (cfg st) = None ->
  reader.Parse (opt_Reader (opts (cfg st)))
    (fst (read_sources (sources (cfg st)) [] (world st))) = (merged, None) ->
  fst (reader.Values_of (opt_Reader (opts (cfg st))) merged) = Some vs ->
  exists st',
    Get path st = Done (Values_Get vs path) st'
    /\ vals (cfg st') = Some vs
    /\ set (cfg st') = merged
    /\ sets (cfg st') = sets (cfg st)
    /\ mu (cfg st') = false
    /\ world st' = snd (read_sources (sources (cfg st)) [] (world st))
    /\ heap st' = fanout vs (registered (cfg st)) (heap st).
Proof.
  intros Hm Hv Hp Ht. unfold Get.
  unfold bind at 1, loaded, bind, RLock, RUnlock, gets, ret. rewrite Hm, Hv.
  rewrite (sync_merged st merged Hm Hp).
  rewrite (update_Done vs); [|by destruct st as [? [] ? ? ?]|by rewrite <- Ht; destruct st as [? [] ? ? ?]].
  expose st. unfold Lock, Get_locked, bind, gets, Unlock, ret. simpl.
  rewrite Ht. simpl. eexists. split; [done|]. simpl. by rewrite Ht.
Qed.

(** The state in which the cold start leaves an aggregator without
    registered watchers when the merge succeeds and no tree is built. *)
Lemma sync_no_tree st merged :
  mu (cfg st) = false ->
  registered (cfg st) = [] ->
  reader.Parse (opt_Reader (opts (cfg st)))
    (fst (read_sources (sources (cfg st)) [] (world st))) = (merged, None) ->
  fst (reader.Values_of (opt_Reader (opts (cfg st))) merged) = None ->
  sync st =
  Done tt (with_world (snd (read_sources (sources (cfg st)) [] (world st)))
             (on_cfg (fun c => with_set merged (with_vals None c)) st)).
Proof.
  intros Hm Hr Hp Ht. rewrite (sync_merged st merged Hm Hp).
  expose st. unfold on_cfg, with_world, with_set, with_vals. simpl.
  rewrite Ht. rewrite update_nil by done.
  unfold registered in *. simpl in *. by rewrite Hr.
Qed.

(** X9: the fallback of [Get].  With nothing loaded and no watcher
    registered, when the bootstrap merge succeeds with a set that is nil or
    has no data and the reader reports an error for it, [Get] builds the
    tree from a change set with the document [{}], the source name
    [config] and the current time, returns the value at the path in that
    tree and keeps the tree; the merged set stays the one of the merge. *)
Theorem Get_substitutes_empty_document path st merged err vs :
  mu (cfg st) = false ->
  vals (cfg st) = None ->
  registered (cfg st) = [] ->
  reader.Parse (opt_Reader (opts (cfg st)))
    (fst (read_sources (sources (cfg st)) [] (world st))) = (merged, None) ->
  reader.Values_of (opt_Reader (opts (cfg st))) merged = (None, Some err) ->
  no_data merged = true ->
  fst (reader.Values_of (opt_Reader (opts (cfg st)))
         (Some (source.mkChangeSet (Some empty_document) "" "config"
                  (time_Now (snd (read_sources (sources (cfg st)) [] (world st)))))))
  = Some vs ->
  exists st',
    Get path st = Done (Values_Get vs path) st'
    /\ vals (cfg st') = Some vs
    /\ set (cfg st') = merged
    /\ mu (cfg st') = false.
Proof.
  intros Hm Hv Hr Hp Ht Hnd Hs. unfold Get.
  unfold bind at 1, loaded, bind, RLock, RUnlock, gets, ret. rewrite Hm, Hv.
  rewrite (sync_no_tree st merged Hm Hr Hp); [|by rewrite Ht].
  expose st. unfold Lock, Get_locked, bind, gets, modify, Unlock, ret. simpl.
  rewrite Ht, Hnd. simpl. rewrite Hs. simpl. by eexists.
Qed.

(** X10: [Get] returns a value even when no tree can be built.  With
    nothing loaded and no watcher registered, when the bootstrap merge
    succeeds and the reader builds no tree, neither for the merged set nor
    for the substitute, [Get] returns [newValue()] and the aggregator stays
    unloaded with the lock free, so the next [Get] runs the bootstrap
    again. *)
Theorem Get_returns_newValue path st merged :
  mu (cfg st) = false ->
  vals (cfg st) = None ->
  registered (cfg st) = [] ->
  reader.Parse (opt_Reader (opts (cfg st)))
    (fst (read_sources (sources (cfg st)) [] (world st))) = (merged, None) ->
  (forall ch, fst (reader.Values_of (opt_Reader (opts (cfg st))) ch) = None) ->
  exists st',
    Get path st = Done newValue st'
    /\ vals (cfg st') = None
    /\ mu (cfg st') = false
    /\ registered (cfg st') = [].
Proof.
  intros Hm Hv Hr Hp Hno. unfold Get.
  unfold bind at 1, loaded, bind, RLock, RUnlock, gets, ret. rewrite Hm, Hv.
  rewrite (sync_no_tree st merged Hm Hr Hp); [|apply Hno].
  expose st. unfold Lock, Get_locked, bind, gets, modify, Unlock, ret. simpl.
  pose proof (Hno merged) as H1.
  destruct (reader.Values_of (opt_Reader o) merged) as [v1 [e1|]]; simpl in *.
  - rewrite Hno. simpl. by eexists.
  - subst v1. simpl. by eexists.
Qed.

(** X11: [Bytes] on an aggregator with nothing loaded runs the same
    bootstrap; when the merge succeeds it returns the serialized tree, and
    the empty buffer when no tree was built, in which case nothing is
    substituted and the aggregator stays unloaded. *)
Theorem Bytes_cold_start st merged :
  mu (cfg st) = false ->
  vals (cfg st) = None ->
  reader.Parse (opt_Reader (opts (cfg st)))
    (fst (read_sources (sources (cfg st)) [] (world st))) = (merged, None) ->
  fst (reader.Values_of (opt_Reader (opts (cfg st))) merged) <> None
  \/ registered (cfg st) = [] ->
  exists st',
    Bytes st =
    Done (match fst (reader.Values_of (opt_Reader (opts (cfg st))) merged) with
          | Some vs => Values_Bytes vs
          | None => []
          end) st'
    /\ vals (cfg st') = fst (reader.Values_of (opt_Reader (opts (cfg st))) merged)
    /\ mu (cfg st') = false.
Proof.
  intros Hm Hv Hp Hor. unfold Bytes.
  unfold bind at 1, loaded, bind, RLock, RUnlock, gets, ret. rewrite Hm, Hv.
  destruct (fst (reader.Values_of (opt_Reader (opts (cfg st))) merged))
    as [vs|] eqn:Ht.
  - rewrite (sync_merged st merged Hm Hp).
    rewrite (update_Done vs); [|by destruct st as [? [] ? ? ?]|by rewrite <- Ht; destruct st as [? [] ? ? ?]].
    expose st. unfold Lock, Unlock. simpl. rewrite Ht. by eexists.
  - destruct Hor as [Hor|Hr]; [done|].
    rewrite (sync_no_tree st merged Hm Hr Hp Ht).
    expose st. unfold Lock, Unlock. simpl. by eexists.
Qed.


(** ** The ingestion loop on its stream *)

(** X12: a delivery that merges.  With the lock free, when the stream
    delivers a change set for a slot that exists and the merge of the slot
    array with that slot replaced succeeds and yields a value tree, the
    round stores the delivery in its slot, replaces the merged set and the
    value tree by those of the merge of the slots alone, releases the lock,
    fans the tree out and stays on the stream. *)
Theorem watch_pull_merged st i w stopped cs e' merged vs :
  mu (cfg st) = false ->
  source.Next w (world st) = ((cs, None), e') ->
  (i < length (sets (cfg st)))%nat ->
  reader.Parse (opt_Reader (opts (cfg st))) (<[i := cs]> (sets (cfg st))) = (merged, None) ->
  fst (reader.Values_of (opt_Reader (opts (cfg st))) merged) = Some vs ->
  exists st',
    watch_pull i w stopped st = Done (AtPull w stopped) st'
    /\ sets (cfg st') = <[i := cs]> (sets (cfg st))
    /\ set (cfg st') = merged
    /\ vals (cfg st') = Some vs
    /\ mu (cfg st') = false
    /\ world st' = e'
    /\ heap st' = fanout vs (registered (cfg st)) (heap st).
Proof.
  intros Hm Hn Hi Hp Ht.
  unfold watch_pull, bind at 1, call. rewrite Hn.
  unfold bind at 1, Lock. expose st.
  unfold bind at 1, gets. simpl. rewrite decide_True by done.
  unfold bind at 1, modify. unfold bind at 1, gets. simpl. rewrite Hp.
  unfold bind at 1. unfold bind at 1. unfold bind at 1, Unlock. simpl.
  unfold bind at 1. rewrite (update_Done vs) by done.
  unfold ret. eexists. split; [done|]. simpl. by rewrite Ht.
Qed.

(** X13: a delivery for a slot that does not exist yet.  When the stream
    delivers before the slot array has reached the index of the loop, the
    store [c.sets[idx] = cs] is out of range: the round panics, with the
    lock held. *)
Theorem watch_pull_out_of_range st i w stopped cs e' :
  mu (cfg st) = false ->
  source.Next w (world st) = ((cs, None), e') ->
  (length (sets (cfg st)) <= i)%nat ->
  watch_pull i w stopped st = Panicked (with_world e' (on_cfg (with_mu true) st)).
Proof.
  intros Hm Hn Hi.
  unfold watch_pull, bind at 1, call. rewrite Hn.
  unfold bind at 1, Lock. expose st.
  unfold bind at 1, gets. simpl. by rewrite decide_False by lia.
Qed.

(** An exited loop does nothing more. *)
Lemma watch_steps_Exited n st k i s :
  loops st !! k = Some (mkLoop i s Exited) ->
  watch_steps n k st = Done tt st.
Proof.
  intros Hk. induction n as [|n IH]; [done|].
  cbn [watch_steps]. unfold bind at 1, watch_step, bind, gets. rewrite Hk.
  unfold watch_from, ret, modify. simpl.
  rewrite list_insert_id by done.
  replace (with_loops (loops st) st) with st by (by destruct st).
  exact IH.
Qed.

(** X14: shutdown of a loop that is on its stream.  [Close] returns nil and
    a second [Close] changes nothing; after it, when the pull of the loop
    ends with an error, the loop exits, and from then on its steps leave the
    whole state as it is. *)
Theorem watch_exits_after_Close st k i s w stopped cs err e' :
  loops st !! k = Some (mkLoop i s (AtPull w stopped)) ->
  source.Next w (world st) = ((cs, Some err), e') ->
  exists st1 st2,
    Close st = Done None st1
    /\ Close st1 = Done None st1
    /\ watch_step k st1 = Done tt st2
    /\ loops st2 !! k = Some (mkLoop i s Exited)
    /\ forall n, watch_steps n k st2 = Done tt st2.
Proof.
  intros Hk Hn.
  assert (Hlt : (k < length (loops st))%nat) by (by eapply lookup_lt_Some).
  exists (on_cfg (with_exit true) st).
  destruct (leave_stream_Done w stopped (with_world e' (on_cfg (with_exit true) st)))
    as [e2 Hl].
  eexists. split; [done|]. split; [by destruct st as [? [] ? ? ?]|].
  assert (Hstep : watch_step k (on_cfg (with_exit true) st) =
            Done tt (with_loops (<[k := mkLoop i s Exited]> (loops st))
                       (with_world e2 (with_world e' (on_cfg (with_exit true) st))))).
  { unfold watch_step, bind at 1, gets. simpl. rewrite Hk.
    unfold bind at 1, watch_from. simpl.
    unfold watch_pull, bind at 1, call. simpl. rewrite Hn.
    change (mkState e' (with_exit true (cfg st)) (heap st) (loops st) (removers st))
      with (with_world e' (on_cfg (with_exit true) st)).
    rewrite Hl. simpl. unfold modify. done. }
  split; [exact Hstep|].
  assert (Hk2 : loops (with_loops (<[k := mkLoop i s Exited]> (loops st))
                  (with_world e2 (with_world e' (on_cfg (with_exit true) st)))) !! k
                = Some (mkLoop i s Exited)).
  { simpl. by apply list_lookup_insert_eq. }
  split; [exact Hk2|].
  intros n. by eapply watch_steps_Exited.
Qed.

(** ** Registrations *)

Lemma Watch_loaded path st vs :
  mu (cfg st) = false -> vals (cfg st) = Some vs ->
  Watch path st =
  Done (length (heap st), None)
    (mkState (world st)
       (with_idx (int_wrap (idx (cfg st) + 1))
          (with_watchers (<[idx (cfg st) := length (heap st)]> (watchers (cfg st))) (cfg st)))
       (heap st ++ [mkW false path (Values_Get vs path) (make_chan 1)])
       (loops st)
       (removers st ++ [(idx (cfg st), length (heap st))])).
Proof.
  intros Hm Hv. unfold Watch. unfold bind at 1.
  rewrite (Get_loaded path st vs Hm Hv). expose st.
  unfold bind, Lock, Unlock, gets, modify, ret. simpl. done.
Qed.

Lemma int_wrap_succ_ne z :
  - 2 ^ 63 <= z < 2 ^ 63 -> int_wrap (z + 1) <> z.
Proof.
  intros Hz. unfold int_wrap.
  destruct (decide (z = 2 ^ 63 - 1)) as [->|Hne].
  - vm_compute. done.
  - rewrite Z.mod_small by lia. lia.
Qed.

(** X15: two subscriptions in a row.  On a loaded aggregator with the lock
    free, two [Watch] calls return nil errors and two different watchers,
    registered under two different ids (the counter before the first call
    and the wrapped successor), both registered after the second call; each
    holds the value at its own path as baseline and has its own empty
    buffer. *)
Theorem Watch_twice st vs path1 path2 :
  mu (cfg st) = false ->
  vals (cfg st) = Some vs ->
  - 2 ^ 63 <= idx (cfg st) < 2 ^ 63 ->
  exists st1 st2,
    Watch path1 st = Done (length (heap st), None) st1
    /\ Watch path2 st1 = Done (S (length (heap st)), None) st2
    /\ int_wrap (idx (cfg st) + 1) <> idx (cfg st)
    /\ watchers (cfg st2) !! idx (cfg st) = Some (length (heap st))
    /\ watchers (cfg st2) !! int_wrap (idx (cfg st) + 1) = Some (S (length (heap st)))
    /\ heap st2 !! length (heap st)
       = Some (mkW false path1 (Values_Get vs path1) (make_chan 1))
    /\ heap st2 !! S (length (heap st))
       = Some (mkW false path2 (Values_Get vs path2) (make_chan 1)).
Proof.
  intros Hm Hv Hi. pose proof (int_wrap_succ_ne _ Hi) as Hne.
  eexists. eexists. split; [by apply (Watch_loaded path1 st vs)|].
  split.
  { rewrite (Watch_loaded path2 _ vs); [|by destruct st as [? [] ? ? ?]|by destruct st as [? [] ? ? ?]].
    simpl. rewrite length_app. simpl. rewrite Nat.add_1_r. reflexivity. }
  expose st. split; [done|]. split; [|split; [|split]].
  - rewrite lookup_insert_ne by done. apply lookup_insert_eq.
  - apply lookup_insert_eq.
  - rewrite lookup_app_l by (rewrite length_app; simpl; lia).
    rewrite lookup_app_r by done. by rewrite Nat.sub_diag.
  - rewrite lookup_app_r by (rewrite length_app; simpl; lia).
    rewrite length_app. simpl. by replace (S (length h) - (length h + 1))%nat with 0%nat by lia.
Qed.

(** ** Construction *)

Lemma apply_options_app (os os' : list Option_) (o : Options) :
  fold_left (fun o f => f o) (os ++ os') o
  = fold_left (fun o f => f o) os' (fold_left (fun o f => f o) os o).
Proof. apply fold_left_app. Qed.

Lemma apply_WithSource ss (o : Options) :
  fold_left (fun o f => f o) (map WithSource ss) o
  = mkOptions (opt_Reader o) (opt_Source o ++ ss).
Proof.
  revert o; induction ss as [|s ss IH]; intros o; simpl.
  - destruct o. simpl. by rewrite app_nil_r.
  - rewrite IH. simpl. by rewrite <- app_assoc.
Qed.

(** X16: the options of [newConfig].  The options apply in order: the
    reader is the one of the last [WithReader] whatever sources follow it,
    and [json.NewReader()] when there is none; the sources are those given,
    in order; and one ingestion loop is started per source, the [k]-th loop
    on the [k]-th source with index [k]. *)
Theorem newConfig_options os r ss e :
  opt_Reader (opts (cfg (newConfig (os ++ WithReader r :: map WithSource ss) e))) = r
  /\ sources (cfg (newConfig (os ++ WithReader r :: map WithSource ss) e))
     = sources (cfg (newConfig os e)) ++ ss
  /\ opt_Reader (opts (cfg (newConfig (map WithSource ss) e))) = json_NewReader
  /\ sources (cfg (newConfig (map WithSource ss) e)) = ss
  /\ forall os' k,
       loops (newConfig os' e) !! k
       = (fun s => mkLoop k s AtStart) <$> sources (cfg (newConfig os' e)) !! k.
Proof.
  unfold newConfig. simpl. rewrite apply_options_app. simpl.
  rewrite !apply_WithSource. simpl.
  repeat split.
  intros os' k. by rewrite list_lookup_imap.
Qed.

End Behaviour.

(** * The Consul source *)

Section ConsulSource.
Context `{consul.Backend}.

Lemma collect_lookup kv (data data' : gmap string bytes) k :
  consul.collect kv data = Some data' ->
  data' !! k = match consul.last_value k kv with
               | Some x => Some x
               | None => data !! k
               end.
Proof.
  revert data; induction kv as [|[v|] kv IH]; intros data; simpl.
  - by intros [= ->].
  - intros Hc. rewrite (IH _ Hc).
    destruct (consul.last_value k kv); [done|].
    case_decide as Hk.
    + subst k. apply lookup_insert_eq.
    + by apply lookup_insert_ne.
  - done.
Qed.

Lemma collect_panics kv (data : gmap string bytes) :
  consul.collect kv data = None -> None ∈ kv.
Proof.
  revert data; induction kv as [|[v|] kv IH]; intros data; simpl.
  - done.
  - intros Hc. right. by eapply IH.
  - intros _. by left.
Qed.

Lemma hex_length b : String.length (consul.hex b) = (2 * length b)%nat.
Proof. induction b as [|x b IH]; simpl; [done|]. rewrite IH. lia. Qed.

(** X17: [Read] of the Consul source returns either a change set or an
    error, never both and never neither; the error of the client is passed
    on as it is, and a listing without entries is the error
    [source not found] with the prefix; the world is the one the listing
    left.  It panics only when the listing holds a nil entry. *)
Theorem consul_Read_outcome (c : consul.consul) e :
  match consul.Read c e with
  | Some ((cs, err), e') =>
      e' = snd (consul.KV_List (consul.prefix c) e)
      /\ (cs = None <-> err <> None)
      /\ (forall er, snd (fst (consul.KV_List (consul.prefix c) e)) = Some er ->
                     err = Some er)
      /\ (fst (consul.KV_List (consul.prefix c) e) = ([], None) ->
          err = Some ("source not found: " +:+ consul.prefix c))
  | None => None ∈ fst (fst (consul.KV_List (consul.prefix c) e))
  end.
Proof.
  unfold consul.Read.
  destruct (consul.KV_List (consul.prefix c) e) as [[kv [er|]] e']; simpl.
  - repeat split; try done; by intros er' [= ->].
  - destruct kv as [|x kv].
    + repeat split; done.
    + destruct (consul.collect (x :: kv) ∅) as [data|] eqn:Hc.
      * destruct (consul.json_Marshal data) as [b [er|]]; repeat split; done.
      * by eapply collect_panics.
Qed.

(** X18: the change set [Read] returns.  Its source name is [consul], its
    data is the serialization of a map that holds, under each key, the value
    of the last listed entry with that key, and its checksum is the digest
    of the data in hexadecimal, two characters per byte of the digest. *)
Theorem consul_Read_change_set (c : consul.consul) e cs err e' :
  consul.Read c e = Some ((Some cs, err), e') ->
  err = None
  /\ source.Name cs = "consul"%string
  /\ exists kv data b,
       consul.KV_List (consul.prefix c) e = ((kv, None), e')
       /\ (forall k, data !! k = consul.last_value k kv)
       /\ consul.json_Marshal data = (b, None)
       /\ source.Data cs = Some b
       /\ source.Checksum cs = consul.hex (consul.md5_Sum b)
       /\ String.length (source.Checksum cs) = (2 * length (consul.md5_Sum b))%nat.
Proof.
  unfold consul.Read.
  destruct (consul.KV_List (consul.prefix c) e) as [[kv [er|]] e0]; [done|].
  destruct kv as [|x kv]; [done|].
  destruct (consul.collect (x :: kv) ∅) as [data|] eqn:Hc; [|done].
  destruct (consul.json_Marshal data) as [b [er|]] eqn:Hj; [done|].
  intros [= <- <- <-]. split; [done|]. split; [done|].
  exists (x :: kv), data, b. split; [done|]. split.
  - intros k. rewrite (collect_lookup _ _ _ k Hc).
    destruct (consul.last_value k (x :: kv)); [done|]. apply lookup_empty.
  - repeat split; try done. simpl. apply hex_length.
Qed.

End ConsulSource.

(** [Read] under the prefix that lists [a] twice: the later value [2] is the
    one in the data, and the checksum is the digest [0x32] in hexadecimal. *)
Lemma consul_Read_change_set_witness :
  consul.Read (consul.mkConsul consul.DefaultPrefix "") tt
  = Some ((Some (source.mkChangeSet (Some [Byte.x32]) "32" "consul" 0), None), tt)
  /\ exists kv data b,
       consul.KV_List consul.DefaultPrefix tt = ((kv, None), tt)
       /\ (forall k, data !! k = consul.last_value k kv)
       /\ consul.json_Marshal data = (b, None)
       /\ b = [Byte.x32].
Proof.
  assert (HR : consul.Read (consul.mkConsul consul.DefaultPrefix "") tt
               = Some ((Some (source.mkChangeSet (Some [Byte.x32]) "32" "consul" 0),
                        None), tt)) by (vm_compute; reflexivity).
  split; [exact HR|].
  destruct (consul_Read_change_set _ _ _ _ _ HR)
    as (_ & _ & kv & data & b & HL & Hd & Hj & Hb & _).
  exists kv, data, b. repeat split; try assumption.
  simpl in Hb. congruence.
Defined.

(** * The further properties at concrete inputs *)

(** After [Watch("a")] and [Stop] on an aggregator over one source. *)
Lemma reachable_wf_witness :
  wf (after (run_op (OpStop 0)) (after (run_op (OpWatch ["a"%string])) one_source)).
Proof.
  apply reachable_wf. apply reach_op. apply reach_op. apply reach_new.
Defined.

Lemma update_keeps_watchers_witness :
  heap one_pending !! 0%nat = Some undrained_watcher
  /\ cfg (after update one_pending) = cfg one_pending
  /\ exists w',
       heap (after update one_pending) !! 0%nat = Some w'
       /\ w_exit w' = false /\ w_path w' = ["a"%string] /\ w_value w' = val_1.
Proof.
  split; [reflexivity|].
  apply (update_keeps_watchers one_pending 0 undrained_watcher). reflexivity.
Defined.

Lemma stopped_watcher_gets_no_delivery_witness :
  exists st1 st2 st3,
    Stop 0 one_watched = Done None st1
    /\ remover_step 0 st1 = Done tt st2
    /\ update st2 = Done tt st3
    /\ watchers (cfg st3) !! 0 = None
    /\ heap st3 !! 0%nat = Some (mkW true ["a"%string] val_1 (mkChan 1 [])).
Proof.
  apply (stopped_watcher_gets_no_delivery one_watched 0 0 0 idle_watcher
           [(Byte.x61, Byte.x31)]).
  - apply (keeps_Watch ["a"%string] one_source). apply wf_newConfig.
  - reflexivity.
  - reflexivity.
  - vm_compute. reflexivity.
  - reflexivity.
  - reflexivity.
Defined.

Lemma Next_returns_delivered_witness :
  Next [([EvDeliver val_1], false); ([EvDeliver val_2], false)] idle_watcher
  = (NextValue val_2, mkW false ["a"%string] val_2 (mkChan 1 []))
  /\ (val_2 ∈ buf (w_updates idle_watcher)
      \/ exists evs pick,
           (evs, pick) ∈ [([EvDeliver val_1], false); ([EvDeliver val_2], false)]
           /\ EvDeliver val_2 ∈ evs).
Proof.
  split; [reflexivity|].
  apply (Next_returns_delivered
           [([EvDeliver val_1], false); ([EvDeliver val_2], false)]
           idle_watcher val_2 (mkW false ["a"%string] val_2 (mkChan 1 []))).
  reflexivity.
Defined.

Lemma Next_error_only_after_Stop_witness :
  fst (Next [([EvStop], false)] idle_watcher) = NextStopped "watcher stopped"
  /\ (w_exit idle_watcher = true
      \/ exists evs pick, (evs, pick) ∈ [([@EvStop flat_world], false)] /\ EvStop ∈ evs).
Proof.
  split; [reflexivity|].
  apply (Next_error_only_after_Stop [([EvStop], false)] idle_watcher "watcher stopped").
  reflexivity.
Defined.

Lemma Next_waits_on_duplicates_witness :
  fst (Next [([EvDeliver val_1], false); ([EvDeliver val_1], false)] undrained_watcher)
  = NextWaiting
  /\ w_value (snd (Next [([EvDeliver val_1], false); ([EvDeliver val_1], false)]
                     undrained_watcher)) = val_1
  /\ w_exit (snd (Next [([EvDeliver val_1], false); ([EvDeliver val_1], false)]
                    undrained_watcher)) = false.
Proof.
  apply (Next_waits_on_duplicates
           [([EvDeliver val_1], false); ([EvDeliver val_1], false)] undrained_watcher).
  - reflexivity.
  - intros u Hu. simpl in Hu. apply list_elem_of_singleton in Hu. by subst u.
  - intros evs pick e Hin He. exists val_1. split; [|reflexivity].
    apply elem_of_cons in Hin as [[= -> ->]|Hin].
    + apply list_elem_of_singleton in He. exact He.
    + apply list_elem_of_singleton in Hin. injection Hin as -> ->.
      apply list_elem_of_singleton in He. exact He.
Defined.

Lemma fanout_reaches_consumer_witness :
  exists st1 st2,
    update one_changed = Done tt st1
    /\ Next_at 0 false st1 = Done (NextValue val_2) st2
    /\ heap st2 !! 0%nat = Some (mkW false ["a"%string] val_2 (make_chan 1)).
Proof.
  apply (fanout_reaches_consumer one_changed [(Byte.x61, Byte.x32)] 0 0%nat
           idle_watcher false).
  - reflexivity.
  - reflexivity.
  - vm_compute. reflexivity.
  - reflexivity.
  - reflexivity.
  - reflexivity.
  - vm_compute. discriminate.
Defined.

Lemma Get_cold_start_witness :
  exists st',
    Get ["a"%string] one_source = Done val_1 st'
    /\ vals (cfg st') = Some [(Byte.x61, Byte.x31)]
    /\ set (cfg st') = Some (source.mkChangeSet (Some doc_a1) "" "flat" 0)
    /\ sets (cfg st') = []
    /\ mu (cfg st') = false
    /\ world st' = tt
    /\ heap st' = [].
Proof.
  apply (Get_cold_start ["a"%string] one_source
           (Some (source.mkChangeSet (Some doc_a1) "" "flat" 0))
           [(Byte.x61, Byte.x31)]); reflexivity.
Defined.

Lemma Get_substitutes_empty_document_witness :
  exists st',
    Get ["{"%string] one_null = Done [Byte.x7d] st'
    /\ vals (cfg st') = Some [(Byte.x7b, Byte.x7d)]
    /\ set (cfg st') = None
    /\ mu (cfg st') = false.
Proof.
  apply (Get_substitutes_empty_document ["{"%string] one_null None "no change set"
           [(Byte.x7b, Byte.x7d)]); reflexivity.
Defined.

Lemma Get_returns_newValue_witness :
  exists st',
    Get ["a"%string] one_blind = Done [] st'
    /\ vals (cfg st') = None
    /\ mu (cfg st') = false
    /\ registered (cfg st') = [].
Proof.
  apply (Get_returns_newValue ["a"%string] one_blind
           (Some (source.mkChangeSet (Some doc_a1) "" "flat" 0)));
    intros; reflexivity.
Defined.

Lemma Bytes_cold_start_witness :
  exists st',
    Bytes one_source = Done doc_a1 st'
    /\ vals (cfg st') = Some [(Byte.x61, Byte.x31)]
    /\ mu (cfg st') = false.
Proof.
  apply (Bytes_cold_start one_source
           (Some (source.mkChangeSet (Some doc_a1) "" "flat" 0))); try reflexivity.
  left. simpl. discriminate.
Defined.

Lemma watch_pull_merged_witness :
  exists st',
    watch_pull 0 (stream_of (change doc_d5)) false one_live
    = Done (AtPull (stream_of (change doc_d5)) false) st'
    /\ sets (cfg st') = [Some (change doc_d5)]
    /\ set (cfg st') = Some (source.mkChangeSet (Some doc_d5) "" "flat" 0)
    /\ vals (cfg st') = Some [(Byte.x64, Byte.x35)]
    /\ mu (cfg st') = false
    /\ world st' = tt
    /\ heap st' = [].
Proof.
  apply (watch_pull_merged one_live 0 (stream_of (change doc_d5)) false
           (Some (change doc_d5)) tt
           (Some (source.mkChangeSet (Some doc_d5) "" "flat" 0))
           [(Byte.x64, Byte.x35)]); try reflexivity.
  vm_compute. lia.
Defined.

(** Two sources, the loop of the second one started first: its slot has
    index 1 and the slot array has one entry. *)
Lemma watch_pull_out_of_range_witness :
  loops second_first !! 1%nat
  = Some (mkLoop 1 (source_of (change doc_d5)) (AtPull (stream_of (change doc_d5)) false))
  /\ sets (cfg second_first) = [None]
  /\ watch_pull 1 (stream_of (change doc_d5)) false second_first
     = Panicked (on_cfg (with_mu true) second_first).
Proof.
  split; [reflexivity|]. split; [reflexivity|].
  apply (watch_pull_out_of_range second_first 1 (stream_of (change doc_d5)) false
           (Some (change doc_d5)) tt); reflexivity.
Defined.

Lemma watch_exits_after_Close_witness :
  exists st1 st2,
    Close broken_pulling = Done None st1
    /\ Close st1 = Done None st1
    /\ watch_step 0 st1 = Done tt st2
    /\ loops st2 !! 0%nat = Some (mkLoop 0 source_broken Exited)
    /\ forall n, watch_steps n 0 st2 = Done tt st2.
Proof.
  apply (watch_exits_after_Close broken_pulling 0 0 source_broken stream_broken false
           None "stream closed" tt); reflexivity.
Defined.

Lemma Watch_twice_witness :
  exists st1 st2,
    Watch ["a"%string] one_live = Done (0%nat, None) st1
    /\ Watch ["d"%string] st1 = Done (1%nat, None) st2
    /\ int_wrap (0 + 1) <> 0
    /\ watchers (cfg st2) !! 0 = Some 0%nat
    /\ watchers (cfg st2) !! int_wrap (0 + 1) = Some 1%nat
    /\ heap st2 !! 0%nat = Some (mkW false ["a"%string] val_1 (make_chan 1))
    /\ heap st2 !! 1%nat = Some (mkW false ["d"%string] [] (make_chan 1)).
Proof.
  apply (Watch_twice one_live [(Byte.x61, Byte.x31)] ["a"%string] ["d"%string]).
  - reflexivity.
  - reflexivity.
  - vm_compute. split; [discriminate|reflexivity].
Defined.

(** * The lock left held *)

Section LockHeld.
Context `{Collaborators}.

(** X19: [Bytes] and [Watch] share the cold start of [Get]: with the lock
    free and nothing loaded, when the merge of the bootstrap reads fails,
    [sync] has returned with the lock held and both calls wait on it; no
    watcher is allocated or registered. *)
Theorem Bytes_and_Watch_block_after_failed_bootstrap path st err :
  mu (cfg st) = false ->
  vals (cfg st) = None ->
  snd (reader.Parse (opt_Reader (opts (cfg st)))
         (fst (read_sources (sources (cfg st)) [] (world st)))) = Some err ->
  Bytes st =
  Blocked (with_world (snd (read_sources (sources (cfg st)) [] (world st)))
             (on_cfg (with_mu true) st))
  /\ Watch path st =
     Blocked (with_world (snd (read_sources (sources (cfg st)) [] (world st)))
                (on_cfg (with_mu true) st)).
Proof.
  intros Hm Hv Hp. split.
  - unfold Bytes.
    unfold bind at 1, loaded, bind, RLock, RUnlock, gets, ret. rewrite Hm, Hv.
    rewrite (sync_failed st err Hm Hp). unfold Lock. by destruct st as [? [] ? ? ?].
  - unfold Watch. unfold bind at 1. unfold Get.
    unfold bind at 1, loaded, bind, RLock, RUnlock, gets, ret. rewrite Hm, Hv.
    rewrite (sync_failed st err Hm Hp). unfold Lock. by destruct st as [? [] ? ? ?].
Qed.

(** X20: a delivery whose merge fails leaves the aggregator locked.  The
    round of the ingestion loop returns with the lock held, and from the
    state it leaves [Get], [Bytes], [Watch], [reload] and [update] all wait
    on the lock, as does the round for any later delivery, of this loop or
    of another. *)
Theorem merge_failure_leaves_lock_held st i w stopped cs e' err path :
  mu (cfg st) = false ->
  source.Next w (world st) = ((cs, None), e') ->
  (i < length (sets (cfg st)))%nat ->
  snd (reader.Parse (opt_Reader (opts (cfg st))) (<[i := cs]> (sets (cfg st)))) = Some err ->
  exists pc st',
    watch_pull i w stopped st = Done pc st'
    /\ mu (cfg st') = true
    /\ Get path st' = Blocked st'
    /\ Bytes st' = Blocked st'
    /\ Watch path st' = Blocked st'
    /\ reload st' = Blocked st'
    /\ update st' = Blocked st'
    /\ forall j w2 stopped2 cs2 e2,
         source.Next w2 (world st') = ((cs2, None), e2) ->
         watch_pull j w2 stopped2 st' = Blocked (with_world e2 st').
Proof.
  intros Hm Hn Hi Hp.
  assert (Hrun : exists pc st', watch_pull i w stopped st = Done pc st'
                                /\ mu (cfg st') = true).
  { unfold watch_pull, bind at 1, call. rewrite Hn.
    unfold bind at 1, Lock.
    destruct st as [e [ex o m s v ss srcs ix ws] h l r]. simpl in *. subst m.
    unfold bind at 1, gets. simpl. rewrite decide_True by done.
    unfold bind at 1, modify. unfold bind at 1, gets. simpl.
    destruct (reader.Parse _ _) as [merged e0]. simpl in Hp. subst e0.
    match goal with |- context [leave_stream w stopped ?s] =>
      destruct (leave_stream_Done w stopped s) as [e2 ->] end.
    eexists. eexists. split; [done|]. done. }
  destruct Hrun as (pc & st' & Hrun & Hm').
  exists pc, st'. split; [done|]. split; [done|].
  destruct (held_lock_blocks st' path Hm')
    as (_ & Hu & _ & Hr & HG & HB & HW & _ & _).
  repeat (split; [done|]).
  intros j w2 stopped2 cs2 e2 Hn2.
  unfold watch_pull, bind at 1, call. rewrite Hn2.
  unfold bind at 1, Lock.
  destruct st' as [e3 c3 h3 l3 r3]. simpl in *. by rewrite Hm'.
Qed.

End LockHeld.

Lemma Bytes_and_Watch_block_witness :
  Bytes one_malformed = Blocked (on_cfg (with_mu true) one_malformed)
  /\ Watch ["a"%string] one_malformed = Blocked (on_cfg (with_mu true) one_malformed).
Proof.
  apply (Bytes_and_Watch_block_after_failed_bootstrap ["a"%string] one_malformed
           "malformed change set"); reflexivity.
Defined.

Lemma merge_failure_leaves_lock_held_witness :
  exists pc st',
    watch_pull 0 (stream_of (change doc_bad)) false one_live = Done pc st'
    /\ mu (cfg st') = true
    /\ Get ["a"%string] st' = Blocked st'
    /\ Bytes st' = Blocked st'.
Proof.
  destruct (merge_failure_leaves_lock_held one_live 0 (stream_of (change doc_bad)) false
              (Some (change doc_bad)) tt "malformed change set" ["a"%string])
    as (pc & st' & H1 & H2 & H3 & H4 & _).
  - reflexivity.
  - reflexivity.
  - vm_compute. lia.
  - reflexivity.
  - exists pc, st'. repeat (split; [assumption|]). assumption.
Defined.

(** * Adding sources and stopping streams *)

Section LoadAndStop.
Context `{Collaborators}.

(** X21: [Load] when the merge that follows fails.  From a free lock it
    returns nil; the new sources and their snapshots have been appended and
    their ingestion loops started all the same, while the merged set, the
    value tree and the buffers of the watchers are the ones from before. *)
Theorem Load_failed_merge st ss err :
  mu (cfg st) = false ->
  snd (reader.Parse (opt_Reader (opts (cfg st)))
         (sets (cfg st) ++ fst (snapshots ss (world st)))) = Some err ->
  exists st',
    Load ss st = Done None st'
    /\ sources (cfg st') = sources (cfg st) ++ ss
    /\ sets (cfg st') = sets (cfg st) ++ fst (snapshots ss (world st))
    /\ loops st' = loops st ++ started (length (sets (cfg st))) ss
    /\ set (cfg st') = set (cfg st)
    /\ vals (cfg st') = vals (cfg st)
    /\ heap st' = heap st
    /\ mu (cfg st') = false.
Proof.
  intros Hm Hp. rewrite Load_unfold by done.
  unfold bind at 1. rewrite (reload_failed _ err) by (simpl; done).
  unfold ret. eexists. split; [done|]. simpl. by destruct st as [? [] ? ? ?].
Qed.

(** X22: the stream of a loop is stopped once.  After [Close], the stop
    goroutine of a loop that is on its stream calls [Stop] on the stream and
    ends; when the pull then ends with an error the loop exits without a
    second [Stop]: the world is the one the pull left. *)
Theorem stream_stopped_once st k i s w :
  loops st !! k = Some (mkLoop i s (AtPull w false)) ->
  exit (cfg st) = true ->
  exists st1,
    stopper_step k st = Done tt st1
    /\ world st1 = snd (source.Stop w (world st))
    /\ loops st1 !! k = Some (mkLoop i s (AtPull w true))
    /\ stopper_step k st1 = Blocked st1
    /\ forall cs err e',
         source.Next w (world st1) = ((cs, Some err), e') ->
         exists st2,
           watch_step k st1 = Done tt st2
           /\ world st2 = e'
           /\ loops st2 !! k = Some (mkLoop i s Exited).
Proof.
  intros Hk Hex.
  assert (Hlt : (k < length (loops st))%nat) by (by eapply lookup_lt_Some).
  destruct (source.Stop w (world st)) as [r e1] eqn:HS.
  exists (with_loops (<[k := mkLoop i s (AtPull w true)]> (loops st)) (with_world e1 st)).
  assert (Hk1 : <[k := mkLoop i s (AtPull w true)]> (loops st) !! k
                = Some (mkLoop i s (AtPull w true)))
    by (by apply list_lookup_insert_eq).
  split.
  { unfold stopper_step, bind, gets. rewrite Hk, Hex.
    unfold call. rewrite HS. unfold modify. done. }
  split; [done|]. split; [exact Hk1|]. split.
  { unfold stopper_step, bind, gets. simpl. by rewrite Hk1. }
  intros cs err e' Hn. simpl in Hn.
  eexists. split.
  { unfold watch_step, bind at 1, gets. simpl. rewrite Hk1.
    unfold bind at 1, watch_from. simpl.
    unfold watch_pull, bind at 1, call. simpl. rewrite Hn.
    unfold leave_stream, bind, ret, gets, modify. simpl. rewrite Hex. done. }
  simpl. split; [done|].
  apply list_lookup_insert_eq. by rewrite length_insert.
Qed.

End LoadAndStop.

Lemma Load_failed_merge_witness :
  exists st',
    Load [source_of (change doc_bad)] one_live = Done None st'
    /\ length (sources (cfg st')) = 2%nat
    /\ sets (cfg st') = [Some (change doc_a1); Some (change doc_bad)]
    /\ vals (cfg st') = Some [(Byte.x61, Byte.x31)].
Proof.
  destruct (Load_failed_merge one_live [source_of (change doc_bad)] "malformed change set")
    as (st' & HL & Hsrc & Hs & _ & _ & Hv & _).
  - reflexivity.
  - reflexivity.
  - exists st'. split; [exact HL|]. split; [by rewrite Hsrc|]. split; [exact Hs|exact Hv].
Defined.

Lemma stream_stopped_once_witness :
  exists st1,
    stopper_step 0 (after Close one_live) = Done tt st1
    /\ loops st1 !! 0%nat
       = Some (mkLoop 0 (source_of (change doc_a1)) (AtPull (stream_of (change doc_a1)) true))
    /\ stopper_step 0 st1 = Blocked st1.
Proof.
  destruct (stream_stopped_once (after Close one_live) 0 0 (source_of (change doc_a1))
              (stream_of (change doc_a1)))
    as (st1 & H1 & _ & H2 & H3 & _).
  - reflexivity.
  - reflexivity.
  - exists st1. split; [exact H1|]. split; [exact H2|exact H3].
Defined.
